(** * rk3588-bench: a shallow embedding of [bench.cpp]

    The program times three matrix-multiplication backends (a naive triple
    loop, a CBLAS [sgemm] call and the RKNN matmul accelerator) and prints
    minimum, mean and standard deviation of the timings.

    Conventions of the embedding.
    - [size_t] is the 64-bit unsigned type of the aarch64 target: a value is
      an [N] below [2^64] and every [size_t] product or sum is reduced modulo
      [2^64] ([SizeT.mul], [SizeT.add]).
    - A [std::vector<float>] is a [list] of scalars.  [operator[]] is the
      checked lookup [vec_get] / [vec_set]: an access outside the vector is
      undefined behaviour in C++ and [None] here.
    - The scalar type is abstract ([Scalar]): [fzero] is [0.0f], [fone] is
      [1.0f], [fadd] and [fmul] are the float operations.  No law is assumed
      of them unless a statement says so, and every fold spells out the order
      in which the code adds.
    - Timing samples and the statistics computed from them are idealised as
      real numbers.
    - Storage never runs out: constructing or growing a vector succeeds.
    - Standard output is the C stream [stdout]: line buffered when it refers
      to an interactive device, fully buffered otherwise.  [printf] writes
      into its buffer; [std::cout], synchronised with it, writes through the
      same stream and [std::endl] flushes it.  [abort()] ends the process
      without flushing, as the C library of the target does. *)

From Stdlib Require Import String Bool ZArith NArith Lia Reals Lra List.
From Stdlib Require Import Permutation.
Import ListNotations.

Set Implicit Arguments.

(** ** [size_t] arithmetic *)

Abbreviation size_t := N (only parsing).

(** Region sizes are [uint32_t] in the driver's interface; they are only read. *)
Abbreviation uint32_t := N (only parsing).

Module SizeT.

Definition modulus : N := 18446744073709551616.

Definition wrap (x : N) : N := (x mod modulus)%N.

Definition mul (a b : N) : N := wrap (a * b).

Definition add (a b : N) : N := wrap (a + b).

End SizeT.

(** [int] (and [int32_t]) is 32 bits wide; a [size_t] argument passed where an
    [int] is expected is reduced modulo [2^32] into the signed range. *)
Definition to_int (x : N) : Z :=
  ((Z.of_N x + 2147483648) mod 4294967296 - 2147483648)%Z.

(** ** Scalars *)

Class Scalar (T : Type) : Type := {
  fzero : T;
  fone : T;
  fadd : T -> T -> T;
  fmul : T -> T -> T
}.

#[export] Instance Scalar_Z : Scalar Z :=
  {| fzero := 0%Z; fone := 1%Z; fadd := Z.add; fmul := Z.mul |}.

#[export] Instance Scalar_R : Scalar R :=
  {| fzero := 0%R; fone := 1%R; fadd := Rplus; fmul := Rmult |}.

(** The laws of exact arithmetic that the comparison of the two software
    backends needs. *)
Record ExactScalar (T : Type) `{Scalar T} : Prop := {
  fadd_zero_r : forall x : T, fadd x fzero = x;
  fmul_one_l : forall x : T, fmul fone x = x;
  fmul_zero_l : forall x : T, fmul fzero x = fzero
}.

Arguments ExactScalar T {_}.

(** ** Vectors and counted loops *)

Fixpoint update {A : Type} (l : list A) (n : nat) (x : A) : list A :=
  match l, n with
  | [], _ => []
  | _ :: t, O => x :: t
  | h :: t, S n' => h :: update t n' x
  end.

(** [v[i]] as an rvalue. *)
Definition vec_get {A : Type} (v : list A) (i : size_t) : option A :=
  nth_error v (N.to_nat i).

(** [v[i] = x]. *)
Definition vec_set {A : Type} (v : list A) (i : size_t) (x : A) : option (list A) :=
  if (i <? N.of_nat (length v))%N then Some (update v (N.to_nat i) x) else None.

(** [for (size_t i = start; ...; ++i) body], run for [n] iterations; the loop
    stops at the first iteration whose body is undefined. *)
Fixpoint for_loop {St : Type} (n : nat) (i : size_t) (body : size_t -> St -> option St)
  (s : St) : option St :=
  match n with
  | O => Some s
  | S n' =>
      match body i s with
      | Some s' => for_loop n' (N.succ i) body s'
      | None => None
      end
  end.

(** [for (size_t i = 0; i < bound; ++i) body]. *)
Definition for_upto {St : Type} (bound : size_t) (body : size_t -> St -> option St)
  (s : St) : option St :=
  for_loop (N.to_nat bound) 0%N body s.

(** [0, 1, ..., n-1], ascending. *)
Definition range (n : N) : list N := map N.of_nat (seq 0 (N.to_nat n)).

(** The size of a [std::vector] is a [size_t]. *)
Definition is_vector {A : Type} (v : list A) : Prop :=
  (N.of_nat (length v) < SizeT.modulus)%N.

(** ** The software backends *)

Inductive CBLAS_ORDER : Type := CblasRowMajor | CblasColMajor.

Inductive CBLAS_TRANSPOSE : Type := CblasNoTrans | CblasTrans | CblasConjTrans.

(** Position of element [(r, c)] of a stored matrix with leading dimension
    [ld]. *)
Definition stored_index (Order : CBLAS_ORDER) (ld r c : N) : N :=
  match Order with
  | CblasRowMajor => (r * ld + c)%N
  | CblasColMajor => (c * ld + r)%N
  end.

(** Position of element [(r, c)] of [op(X)]. *)
Definition op_index (Order : CBLAS_ORDER) (Trans : CBLAS_TRANSPOSE) (ld r c : N) : N :=
  match Trans with
  | CblasNoTrans => stored_index Order ld r c
  | _ => stored_index Order ld c r
  end.

(** The number of elements a leading dimension has to span, for [op(X)] of
    shape [r x c]. *)
Definition minor_dim (Order : CBLAS_ORDER) (Trans : CBLAS_TRANSPOSE) (r c : Z) : Z :=
  match Order, Trans with
  | CblasRowMajor, CblasNoTrans => c
  | CblasRowMajor, _ => r
  | CblasColMajor, CblasNoTrans => r
  | CblasColMajor, _ => c
  end.

Definition gemm_legal (Order : CBLAS_ORDER) (TransA TransB : CBLAS_TRANSPOSE)
  (M N K lda ldb ldc : Z) : bool :=
  (0 <=? M)%Z && (0 <=? N)%Z && (0 <=? K)%Z
  && (Z.max 1 (minor_dim Order TransA M K) <=? lda)%Z
  && (Z.max 1 (minor_dim Order TransB K N) <=? ldb)%Z
  && (Z.max 1 (minor_dim Order CblasNoTrans M N) <=? ldc)%Z.

Definition sgemm_t (T : Type) : Type :=
  CBLAS_ORDER -> CBLAS_TRANSPOSE -> CBLAS_TRANSPOSE -> Z -> Z -> Z ->
  T -> list T -> Z -> list T -> Z -> T -> list T -> Z -> option (list T).

Section Backends.

Context {T : Type} `{Scalar T}.

(** [sum += A[i * K + k] * B[k * N + j]] *)
Definition naive_step (A B : list T) (K N i j : size_t) (k : size_t) (sum : T)
  : option T :=
  match vec_get A (SizeT.add (SizeT.mul i K) k),
        vec_get B (SizeT.add (SizeT.mul k N) j) with
  | Some a, Some b => Some (fadd sum (fmul a b))
  | _, _ => None
  end.

Definition matmul_naive (A B : list T) (M K N : size_t) : option (list T) :=
  let C := repeat fzero (N.to_nat (SizeT.mul M N)) in
  for_upto M (fun i C =>
    for_upto N (fun j C =>
      match for_upto K (naive_step A B K N i j) fzero with
      | Some sum => vec_set C (SizeT.add (SizeT.mul i N) j) sum
      | None => None
      end) C) C.

(** The entries of the product, as folds in the order the loops add. *)
Definition entry (v : list T) (i : N) : T := nth (N.to_nat i) v fzero.

Definition dot (A B : list T) (K N i j : size_t) : T :=
  fold_left (fun sum k => fadd sum (fmul (entry A (i * K + k)) (entry B (k * N + j))))
            (range K) fzero.

(** As [dot], with the right operand read transposed: row [j] of the buffer,
    with stride [ldb]. *)
Definition dot_transposed (A B : list T) (K ldb i j : size_t) : T :=
  fold_left (fun sum k => fadd sum (fmul (entry A (i * K + k)) (entry B (j * ldb + k))))
            (range K) fzero.

(** The transpose of a [rows x cols] row-major matrix, itself row-major:
    element [(c, r)] of the result is element [(r, c)] of [B]. *)
Definition transpose (rows cols : size_t) (B : list T) : list T :=
  map (fun p => entry B ((p mod rows) * cols + p / rows)) (range (rows * cols)).

Definition gemm_step (Order : CBLAS_ORDER) (TransA TransB : CBLAS_TRANSPOSE)
  (A : list T) (lda : N) (B : list T) (ldb : N) (i j : N) (k : N) (acc : T)
  : option T :=
  match vec_get A (op_index Order TransA lda i k),
        vec_get B (op_index Order TransB ldb k j) with
  | Some a, Some b => Some (fadd acc (fmul a b))
  | _, _ => None
  end.

(** Modelled from the spec: [cblas_sgemm] of [<cblas.h>], the external dense
    linear algebra routine; only its call is in the repository.  The spec's
    contract: it accepts a storage order, a transpose flag per operand, a
    leading dimension (stride) per operand and the two scaling factors, and
    computes [C := alpha * op(A) * op(B) + beta * C] in place in the caller's
    buffer.  The result is the new content of that buffer.  [None] stands for
    a call outside the routine's contract: an argument the routine rejects (a
    negative dimension, a leading dimension shorter than the rows it strides
    over) or a buffer too short for the elements read or written. *)
Definition sgemm_model : sgemm_t T :=
  fun Order TransA TransB M N K alpha A lda B ldb beta C ldc =>
  if gemm_legal Order TransA TransB M N K lda ldb ldc then
    for_upto (Z.to_N M) (fun i C =>
      for_upto (Z.to_N N) (fun j C =>
        match for_upto (Z.to_N K)
                (gemm_step Order TransA TransB A (Z.to_N lda) B (Z.to_N ldb) i j)
                fzero with
        | Some dot =>
            let p := stored_index Order (Z.to_N ldc) i j in
            match vec_get C p with
            | Some c => vec_set C p (fadd (fmul alpha dot) (fmul beta c))
            | None => None
            end
        | None => None
        end) C) C
  else None.

(** The loop invariants of the two backends: the output has [M * N]
    elements and the positions before [p], in row-major order, hold their
    final values. *)
Definition naive_filled (A B : list T) (M K N : size_t) (p : size_t) (C : list T)
  : Prop :=
  N.of_nat (length C) = (M * N)%N /\
  forall q, (q < p)%N -> vec_get C q = Some (dot A B K N (q / N) (q mod N)).

Definition gemm_filled (A B : list T) (M N : size_t) (p : size_t) (C : list T)
  : Prop :=
  N.of_nat (length C) = (M * N)%N /\
  forall q, (q < p)%N ->
            vec_get C q = Some (dot_transposed A B N N (q / N) (q mod N)).

Variable cblas_sgemm : sgemm_t T.

Definition matmul_cblas (A B : list T) (M K N : size_t) : option (list T) :=
  let C := repeat fzero (N.to_nat (SizeT.mul M N)) in
  cblas_sgemm CblasRowMajor CblasNoTrans CblasTrans
    (to_int M) (to_int N) (to_int K)
    fone A (to_int K) B (to_int N) fzero C (to_int N).

End Backends.

(** ** Statistics *)

Local Open Scope R_scope.

Definition calculateAverage (vec : list R) : R :=
  fold_left (fun sum value => sum + value) vec 0 / INR (length vec).

Definition calculateStdDev (vec : list R) : R :=
  let mean := calculateAverage vec in
  sqrt (fold_left (fun sum value => sum + (value - mean) * (value - mean)) vec 0
        / INR (length vec)).

(** [std::min_element]: the first of the smallest elements, [None] for the
    past-the-end iterator of an empty range. *)
Fixpoint min_element_from (smallest : R) (rest : list R) : R :=
  match rest with
  | [] => smallest
  | x :: rest' =>
      if Rlt_dec x smallest then min_element_from x rest'
      else min_element_from smallest rest'
  end.

Definition min_element (v : list R) : option R :=
  match v with
  | [] => None
  | x :: rest => Some (min_element_from x rest)
  end.

(** The statistics in the spec's words. *)
Fixpoint Rsum (l : list R) : R :=
  match l with
  | [] => 0
  | x :: l' => x + Rsum l'
  end.

Definition arithmetic_mean (S : list R) : R := Rsum S / INR (length S).

Definition population_stddev (S : list R) : R :=
  sqrt (Rsum (map (fun x => (x - arithmetic_mean S) * (x - arithmetic_mean S)) S)
        / INR (length S)).

Definition all_equal (S : list R) : Prop :=
  forall x y, In x S -> In y S -> x = y.

Local Close Scope R_scope.

(** ** Programs with effects

    A program maps the process state to an outcome: a value and the next
    state, abnormal termination through [abort()] (the state at that moment is
    kept; what it holds as pending output is never delivered), or undefined
    behaviour. *)

Inductive Outcome (W A : Type) : Type :=
| Ok (a : A) (w : W)
| Aborted (w : W)
| Undefined.

Arguments Ok {W A} a w.
Arguments Aborted {W A} w.
Arguments Undefined {W A}.

Definition Prog (W A : Type) : Type := W -> Outcome W A.

Definition ret {W A : Type} (a : A) : Prog W A := fun w => Ok a w.

Definition bind {W A B : Type} (m : Prog W A) (f : A -> Prog W B) : Prog W B :=
  fun w =>
    match m w with
    | Ok a w' => f a w'
    | Aborted w' => Aborted w'
    | Undefined => Undefined
    end.

Definition abort {W A : Type} : Prog W A := fun w => Aborted w.

Definition undefined {W A : Type} : Prog W A := fun _ => Undefined.

Definition lift_option {W A : Type} (o : option A) : Prog W A :=
  match o with
  | Some a => ret a
  | None => undefined
  end.

Declare Scope prog_scope.
Delimit Scope prog_scope with prog.
Notation "x <- m ;; k" := (bind m (fun x => k))
  (at level 61, m at next level, right associativity) : prog_scope.
Notation "m ;; k" := (bind m (fun _ => k))
  (at level 61, right associativity) : prog_scope.
Local Open Scope prog_scope.

(** A counted loop whose body has effects. *)
Fixpoint for_prog {W St : Type} (n : nat) (i : size_t)
  (body : size_t -> St -> Prog W St) (s : St) : Prog W St :=
  match n with
  | O => ret s
  | S n' => s' <- body i s ;; for_prog n' (N.succ i) body s'
  end.

(** [for (auto x : xs) body]. *)
Fixpoint for_each {W X : Type} (xs : list X) (body : X -> Prog W unit) : Prog W unit :=
  match xs with
  | [] => ret tt
  | x :: xs' => body x ;; for_each xs' body
  end.

(** ** The accelerator driver and the process state *)

Inductive Slot : Type := SlotA | SlotB | SlotC.

(** The calls the program makes to its external collaborators, and one ghost
    event ([EvNaive]) for an entry into the naive backend.  [EvStore] stands
    for the writes of converted elements into a device region. *)
Inductive Event (H16 : Type) : Type :=
| EvMatmulCreate (M K N : Z) (status : Z)
| EvCreateMem (ctx : nat) (mem : nat) (size : uint32_t)
| EvSetIoMem (ctx : nat) (mem : nat) (attr : Slot)
| EvStore (mem : nat) (data : list H16)
| EvMatmulRun (ctx : nat)
| EvDestroyMem (ctx : nat) (mem : nat)
| EvMatmulDestroy (ctx : nat)
| EvSgemm
| EvNaive.

Arguments EvMatmulCreate {H16} M K N status.
Arguments EvCreateMem {H16} ctx mem size.
Arguments EvSetIoMem {H16} ctx mem attr.
Arguments EvStore {H16} mem data.
Arguments EvMatmulRun {H16} ctx.
Arguments EvDestroyMem {H16} ctx mem.
Arguments EvMatmulDestroy {H16} ctx.
Arguments EvSgemm {H16}.
Arguments EvNaive {H16}.

Definition BenchmarkResult : Type := (R * R * R)%type.

Inductive Output : Type :=
| OutCreateFail (status : Z)
| OutHeader
| OutSeparator
| OutRow (size : N) (naive cblas rknn : BenchmarkResult).

(** What the program cannot decide itself.  The driver's answers may depend
    on every call made before ([list (Event H16)], newest first). *)
Record Environment (T H16 : Type) : Type := {
  (** the [i]-th value drawn from the generator of the [g]-th
      [make_random_matrix] call *)
  uniform_draw : nat -> nat -> T;
  (** the [n]-th reading of [system_clock::now()], in nanoseconds *)
  system_clock_now : nat -> Z;
  (** the conversion [(float16)x] *)
  to_float16 : T -> H16;
  (** the linear algebra routine behind [cblas_sgemm] *)
  cblas_sgemm : sgemm_t T;
  (** the status [rknn_matmul_create] returns for a shape *)
  create_status : list (Event H16) -> Z -> Z -> Z -> Z;
  (** the region sizes it negotiates, [io_attr.A.size] and so on *)
  io_attr_size : list (Event H16) -> Z -> Z -> Z -> Slot -> uint32_t;
  (** the float at a position of the output region *)
  output_region : list (Event H16) -> nat -> T;
  (** whether standard output refers to an interactive device: the stream
      is line buffered then, and fully buffered otherwise *)
  stdout_interactive : bool
}.

Record rknn_tensor_mem : Type := {
  mem_id : nat;
  mem_size : uint32_t
}.

Record RKNNMatMulCtx : Type := {
  ctx : nat;
  io_attr : Slot -> uint32_t;
  mm_A : rknn_tensor_mem;
  mm_B : rknn_tensor_mem;
  mm_C : rknn_tensor_mem;
  mm_M : Z;
  mm_K : Z;
  mm_N : Z
}.

Record World (T H16 : Type) : Type := {
  (** calls made so far, newest first *)
  trace : list (Event H16);
  (** what standard output has delivered, newest first *)
  stdout : list Output;
  (** [static bool first] of the closure's call operator: one variable for
      the whole program *)
  first : bool;
  (** contexts and device regions handed out so far *)
  contexts : nat;
  regions : nat;
  (** generators constructed and clock readings taken so far *)
  generators : nat;
  clock_reads : nat;
  (** ghost: the operands of every backend call made by [benchmark],
      newest first *)
  calls : list (list T * list T);
  (** what [printf] wrote and the stream still holds in its buffer, newest
      first: the next flush delivers it, [abort()] drops it *)
  pending : list Output
}.

Definition initial_world {T H16 : Type} : World T H16 :=
  {| trace := []; stdout := []; first := true; contexts := 0; regions := 0;
     generators := 0; clock_reads := 0; calls := []; pending := [] |}.

Section Harness.

Context {T H16 : Type} `{Scalar T}.
Variable env : Environment T H16.

Local Abbreviation world := (World T H16).
Local Abbreviation prog := (Prog (World T H16)).

Definition log (e : Event H16) : prog unit := fun w =>
  Ok tt {| trace := e :: trace w; stdout := stdout w; first := first w;
           contexts := contexts w; regions := regions w;
           generators := generators w; clock_reads := clock_reads w;
           calls := calls w; pending := pending w |}.

(** [std::cout << ... << std::endl]: the line goes through the stream and
    [endl] flushes it, after whatever was pending. *)
Definition print (o : Output) : prog unit := fun w =>
  Ok tt {| trace := trace w; stdout := o :: pending w ++ stdout w;
           first := first w;
           contexts := contexts w; regions := regions w;
           generators := generators w; clock_reads := clock_reads w;
           calls := calls w; pending := [] |}.

(** [printf] of a line: it goes into the buffer of the stream, which a line
    buffered stream delivers at the newline and a fully buffered stream
    keeps. *)
Definition printf (o : Output) : prog unit := fun w =>
  if stdout_interactive env then
    Ok tt {| trace := trace w; stdout := o :: pending w ++ stdout w;
             first := first w;
             contexts := contexts w; regions := regions w;
             generators := generators w; clock_reads := clock_reads w;
             calls := calls w; pending := [] |}
  else
    Ok tt {| trace := trace w; stdout := stdout w; first := first w;
             contexts := contexts w; regions := regions w;
             generators := generators w; clock_reads := clock_reads w;
             calls := calls w; pending := o :: pending w |}.

Definition get_first : prog bool := fun w => Ok (first w) w.

Definition set_first (b : bool) : prog unit := fun w =>
  Ok tt {| trace := trace w; stdout := stdout w; first := b;
           contexts := contexts w; regions := regions w;
           generators := generators w; clock_reads := clock_reads w;
           calls := calls w; pending := pending w |}.

Definition record_call (A B : list T) : prog unit := fun w =>
  Ok tt {| trace := trace w; stdout := stdout w; first := first w;
           contexts := contexts w; regions := regions w;
           generators := generators w; clock_reads := clock_reads w;
           calls := (A, B) :: calls w; pending := pending w |}.

(** [std::chrono::system_clock::now()] *)
Definition now : prog Z := fun w =>
  Ok (system_clock_now env (clock_reads w))
     {| trace := trace w; stdout := stdout w; first := first w;
        contexts := contexts w; regions := regions w;
        generators := generators w; clock_reads := S (clock_reads w);
        calls := calls w; pending := pending w |}.

(** The matrix the [g]-th generator fills: [A[i] = dis(gen)] for every [i]
    below [M * N]. *)
Definition random_matrix (g : nat) (M N : size_t) : list T :=
  map (uniform_draw env g) (seq 0 (N.to_nat (SizeT.mul M N))).

Definition make_random_matrix (M N : size_t) : prog (list T) := fun w =>
  Ok (random_matrix (generators w) M N)
     {| trace := trace w; stdout := stdout w; first := first w;
        contexts := contexts w; regions := regions w;
        generators := S (generators w); clock_reads := clock_reads w;
        calls := calls w; pending := pending w |}.

(** *** The driver's entry points *)

Definition rknn_matmul_create (M K N : Z) : prog (Z * nat * (Slot -> uint32_t)) := fun w =>
  let status := create_status env (trace w) M K N in
  Ok (status, contexts w, io_attr_size env (trace w) M K N)
     {| trace := EvMatmulCreate M K N status :: trace w; stdout := stdout w;
        first := first w; contexts := S (contexts w); regions := regions w;
        generators := generators w; clock_reads := clock_reads w;
        calls := calls w; pending := pending w |}.

(** The region handed out has the size asked for. *)
Definition rknn_create_mem (c : nat) (size : uint32_t) : prog rknn_tensor_mem := fun w =>
  Ok {| mem_id := regions w; mem_size := size |}
     {| trace := EvCreateMem c (regions w) size :: trace w; stdout := stdout w;
        first := first w; contexts := contexts w; regions := S (regions w);
        generators := generators w; clock_reads := clock_reads w;
        calls := calls w; pending := pending w |}.

Definition rknn_matmul_set_io_mem (c : nat) (mem : rknn_tensor_mem) (attr : Slot)
  : prog unit :=
  log (EvSetIoMem c (mem_id mem) attr).

Definition rknn_matmul_run (c : nat) : prog unit := log (EvMatmulRun c).

Definition rknn_destroy_mem (c : nat) (mem : rknn_tensor_mem) : prog unit :=
  log (EvDestroyMem c (mem_id mem)).

Definition rknn_matmul_destroy (c : nat) : prog unit := log (EvMatmulDestroy c).

(** *** The hardware backend *)

Definition make_matmul (M K N : Z) : prog RKNNMatMulCtx :=
  r <- rknn_matmul_create M K N ;;
  let '(status, handle, attr) := r in
  if (status <? 0)%Z then
    printf (OutCreateFail status) ;; abort
  else
    A <- rknn_create_mem handle (attr SlotA) ;;
    B <- rknn_create_mem handle (attr SlotB) ;;
    C <- rknn_create_mem handle (attr SlotC) ;;
    rknn_matmul_set_io_mem handle A SlotA ;;
    rknn_matmul_set_io_mem handle B SlotB ;;
    rknn_matmul_set_io_mem handle C SlotC ;;
    ret {| ctx := handle; io_attr := attr; mm_A := A; mm_B := B; mm_C := C;
           mm_M := M; mm_K := K; mm_N := N |}.

(** [ptr[i] = (float16)data[i]]: the region grows by one converted element. *)
Definition convert_step (data : list T) (i : size_t) (ptr : list H16)
  : option (list H16) :=
  match vec_get data i with
  | Some x => Some (ptr ++ [to_float16 env x])
  | None => None
  end.

Definition set_matrix_data (c : nat) (mem : rknn_tensor_mem) (attr : Slot)
  (data : list T) : prog unit :=
  let size := (mem_size mem / 2)%N in
  ptr <- lift_option (for_upto size (convert_step data) []) ;;
  log (EvStore (mem_id mem) ptr) ;;
  rknn_matmul_set_io_mem c mem attr.

Definition free_matmul (c : RKNNMatMulCtx) : prog unit :=
  rknn_destroy_mem (ctx c) (mm_A c) ;;
  rknn_destroy_mem (ctx c) (mm_B c) ;;
  rknn_destroy_mem (ctx c) (mm_C c) ;;
  rknn_matmul_destroy (ctx c).

(** [std::vector<float>(ctx->c, ctx->c + n)]: [n] floats read from the output
    region, which holds [mem_size / 4] of them. *)
Definition read_output (mem : rknn_tensor_mem) (n : size_t) : prog (list T) := fun w =>
  if (4 * n <=? mem_size mem)%N then
    Ok (map (output_region env (trace w)) (seq 0 (N.to_nat n))) w
  else Undefined.

(** The closure [rknn_setup] returns, with its captured context. *)
Definition rknn_call (c : RKNNMatMulCtx) (A B : list T) (M K N : size_t)
  : prog (list T) :=
  f <- get_first ;;
  (if f then
     set_first false ;;
     set_matrix_data (ctx c) (mm_A c) SlotA A ;;
     set_matrix_data (ctx c) (mm_B c) SlotB B
   else ret tt) ;;
  rknn_matmul_run (ctx c) ;;
  read_output (mm_C c) (SizeT.mul M N).

Definition rknn_setup (M K N : size_t) : prog RKNNMatMulCtx :=
  make_matmul (to_int M) (to_int K) (to_int N).

(** *** The software backends as timed callables *)

Definition naive_backend (A B : list T) (M K N : size_t) : prog (list T) :=
  log EvNaive ;; lift_option (matmul_naive A B M K N).

Definition cblas_backend (A B : list T) (M K N : size_t) : prog (list T) :=
  log EvSgemm ;; lift_option (matmul_cblas (cblas_sgemm env) A B M K N).

(** *** The benchmark runner *)

Definition backend : Type :=
  list T -> list T -> size_t -> size_t -> size_t -> prog (list T).

(** [duration_cast<milliseconds>(end - start).count() / 1000.0f] *)
Definition elapsed_seconds (start end_ : Z) : R :=
  (IZR (Z.quot (end_ - start) 1000000) / 1000)%R.

Definition timed_call (A B : list T) (M K N : size_t) (func : backend)
  (i : size_t) (times : list R) : prog (list R) :=
  start <- now ;;
  record_call A B ;;
  _ <- func A B M K N ;;
  end_ <- now ;;
  ret (times ++ [elapsed_seconds start end_]).

(** [benchmark] up to the end of its loop: the vector [times]. *)
Definition benchmark_times (M K N repeat : size_t) (func : backend) : prog (list R) :=
  A <- make_random_matrix M K ;;
  B <- make_random_matrix K N ;;
  _ <- now ;;
  for_prog (N.to_nat repeat) 0%N (timed_call A B M K N func) [].

Definition benchmark (M K N repeat : size_t) (func : backend) : prog BenchmarkResult :=
  times <- benchmark_times M K N repeat func ;;
  match min_element times with
  | Some m => ret (m, calculateAverage times, calculateStdDev times)
  | None => undefined
  end.

Definition bench_all (M K N repeat : size_t) : prog (list BenchmarkResult) :=
  r0 <- benchmark M K N 3 naive_backend ;;
  r1 <- benchmark M K N repeat cblas_backend ;;
  rknn <- rknn_setup M K N ;;
  r2 <- benchmark M K N repeat (rknn_call rknn) ;;
  ret [r0; r1; r2].

Definition sizes : list size_t := [256; 512; 1024; 2048]%N.

Definition main : prog Z :=
  let repeat := 20%N in
  print OutHeader ;;
  print OutSeparator ;;
  for_each sizes (fun size =>
    r <- bench_all size size size repeat ;;
    match r with
    | r0 :: r1 :: r2 :: _ => print (OutRow size r0 r1 r2)
    | _ => undefined
    end) ;;
  ret 0%Z.

(** *** Descriptions used in the statements below *)

(** The content [set_matrix_data] leaves in a region that holds [size]
    halves. *)
Definition converted (size : size_t) (data : list T) : list H16 :=
  map (to_float16 env) (firstn (N.to_nat size) data).

(** The driver calls of a successful [make_matmul], newest first. *)
Definition setup_events (c : RKNNMatMulCtx) (status : Z) : list (Event H16) :=
  [ EvSetIoMem (ctx c) (mem_id (mm_C c)) SlotC;
    EvSetIoMem (ctx c) (mem_id (mm_B c)) SlotB;
    EvSetIoMem (ctx c) (mem_id (mm_A c)) SlotA;
    EvCreateMem (ctx c) (mem_id (mm_C c)) (mem_size (mm_C c));
    EvCreateMem (ctx c) (mem_id (mm_B c)) (mem_size (mm_B c));
    EvCreateMem (ctx c) (mem_id (mm_A c)) (mem_size (mm_A c));
    EvMatmulCreate (mm_M c) (mm_K c) (mm_N c) status ].

(** The calls that convert and hand over the two inputs, newest first. *)
Definition upload_events (c : RKNNMatMulCtx) (A B : list T) : list (Event H16) :=
  [ EvSetIoMem (ctx c) (mem_id (mm_B c)) SlotB;
    EvStore (mem_id (mm_B c)) (converted (mem_size (mm_B c) / 2) B);
    EvSetIoMem (ctx c) (mem_id (mm_A c)) SlotA;
    EvStore (mem_id (mm_A c)) (converted (mem_size (mm_A c) / 2) A) ].

(** No product of two dimensions wraps. *)
Definition shape_fits (M K N : size_t) : Prop :=
  (M * K < SizeT.modulus)%N /\ (K * N < SizeT.modulus)%N /\
  (M * N < SizeT.modulus)%N.

(** The external collaborators stay inside their contracts for a shape: the
    linear algebra routine returns, the negotiated input regions are no
    larger than the inputs and the output region holds the whole product. *)
Definition collaborators_ok (M K N : size_t) : Prop :=
  (forall A B : list T,
      N.of_nat (length A) = (M * K)%N -> N.of_nat (length B) = (K * N)%N ->
      exists C, matmul_cblas (cblas_sgemm env) A B M K N = Some C) /\
  (forall h,
      (io_attr_size env h (to_int M) (to_int K) (to_int N) SlotA / 2 <= M * K)%N /\
      (io_attr_size env h (to_int M) (to_int K) (to_int N) SlotB / 2 <= K * N)%N /\
      (4 * (M * N) <= io_attr_size env h (to_int M) (to_int K) (to_int N) SlotC)%N).

(** No report of a failed negotiation is among the lines [out]. *)
Definition no_report (out : list Output) : Prop :=
  forall status, ~ In (OutCreateFail status) out.

(** The state in which the program ends when a plan negotiation fails: the
    failed call is the last call made; its report is the last line
    delivered when standard output is line buffered, and otherwise it is
    pending, and so lost, and no report was delivered. *)
Definition stopped_at_failed_create (w : World T H16) : Prop :=
  exists M K N rest,
    trace w = EvMatmulCreate M K N (create_status env rest M K N) :: rest /\
    (create_status env rest M K N < 0)%Z /\
    (stdout_interactive env = true ->
     exists out, stdout w = OutCreateFail (create_status env rest M K N) :: out) /\
    (stdout_interactive env = false ->
     pending w = [OutCreateFail (create_status env rest M K N)] /\
     no_report (stdout w)).

End Harness.

(** ** Reading a trace *)

Section Traces.

Context {H16 : Type}.

Definition is_naive (e : Event H16) : bool :=
  match e with EvNaive => true | _ => false end.

Definition is_sgemm (e : Event H16) : bool :=
  match e with EvSgemm => true | _ => false end.

Definition is_run (e : Event H16) : bool :=
  match e with EvMatmulRun _ => true | _ => false end.

(** A write of converted input into a device region. *)
Definition is_store (e : Event H16) : bool :=
  match e with EvStore _ _ => true | _ => false end.

Definition is_create (e : Event H16) : bool :=
  match e with EvMatmulCreate _ _ _ _ => true | _ => false end.

Definition is_create_mem (e : Event H16) : bool :=
  match e with EvCreateMem _ _ _ => true | _ => false end.

(** A call that releases a region or a computation handle. *)
Definition is_destroy (e : Event H16) : bool :=
  match e with
  | EvDestroyMem _ _ => true
  | EvMatmulDestroy _ => true
  | _ => false
  end.

(** A plan negotiation that returned a negative status. *)
Definition create_failed (e : Event H16) : bool :=
  match e with
  | EvMatmulCreate _ _ _ status => (status <? 0)%Z
  | _ => false
  end.

Definition count_events (p : Event H16 -> bool) (t : list (Event H16)) : nat :=
  length (filter p t).

End Traces.

(** Every plan negotiation so far returned a status that is not negative. *)
Definition no_failed_create {T H16 : Type} (w : World T H16) : Prop :=
  count_events create_failed (trace w) = 0.

(** ** Concrete instances *)

(** An environment over exact integer scalars: the linear algebra routine is
    the model of its contract, every negotiation succeeds and the regions
    are as large as the operands. *)
Definition exact_env : Environment Z Z :=
  {| uniform_draw := fun g i => Z.of_nat (g + i);
     system_clock_now := fun n => (Z.of_nat n * 1000000)%Z;
     to_float16 := fun x => x;
     cblas_sgemm := sgemm_model;
     create_status := fun _ _ _ _ => 0%Z;
     io_attr_size := fun _ M K N s =>
       match s with
       | SlotA => Z.to_N (2 * (M * K))
       | SlotB => Z.to_N (2 * (K * N))
       | SlotC => Z.to_N (4 * (M * N))
       end;
     output_region := fun _ _ => 0%Z;
     stdout_interactive := true |}.

(** As [exact_env], with standard output redirected to a pipe or a file and
    an accelerator that refuses every plan. *)
Definition piped_env : Environment Z Z :=
  {| uniform_draw := uniform_draw exact_env;
     system_clock_now := system_clock_now exact_env;
     to_float16 := to_float16 exact_env;
     cblas_sgemm := cblas_sgemm exact_env;
     create_status := fun _ _ _ _ => (-1)%Z;
     io_attr_size := io_attr_size exact_env;
     output_region := output_region exact_env;
     stdout_interactive := false |}.

(** A dimension whose square is [2^64], and an operand of that many zeros. *)
Definition wrap_dim : size_t := 4294967296%N.


(** ** Further descriptions and loops *)

Section Operands.

Context {T : Type} `{Scalar T}.

(** The [n x n] identity matrix, row-major. *)
Definition identity_matrix (n : size_t) : list T :=
  map (fun p => if (p / n =? p mod n)%N then fone else fzero) (range (n * n)).

End Operands.

Section FillLoop.

Context {T H16 : Type} `{Scalar T}.
Variable env : Environment T H16.

(** The body of [make_random_matrix] as it is written: the vector
    [A(M * N)] of zeros, then [A[i] = dis(gen)] for [i] below [M * N], the
    [i]-th assignment storing the [i]-th draw of generator [g]. *)
Definition fill_random (g : nat) (M N : size_t) : option (list T) :=
  let A := repeat fzero (N.to_nat (SizeT.mul M N)) in
  for_upto (SizeT.mul M N)
           (fun i A => vec_set A i (uniform_draw env g (N.to_nat i))) A.

End FillLoop.

Section MoreTraces.

Context {H16 : Type}.

(** The allocation and the release of the region [m]. *)
Definition creates_region (m : nat) (e : Event H16) : bool :=
  match e with EvCreateMem _ m' _ => Nat.eqb m m' | _ => false end.

Definition destroys_region (m : nat) (e : Event H16) : bool :=
  match e with EvDestroyMem _ m' => Nat.eqb m m' | _ => false end.

(** The release of the computation handle [c]. *)
Definition destroys_context (c : nat) (e : Event H16) : bool :=
  match e with EvMatmulDestroy c' => Nat.eqb c c' | _ => false end.

End MoreTraces.

Section Regions.

Context {T H16 : Type}.

(** The condition under which a call of the closure stays inside the host
    vectors and the output region: on the call that uploads, each input
    region holds no more halves than its operand has elements; on every
    call, the output region holds [M * N] floats. *)
Definition regions_fit (c : RKNNMatMulCtx) (A B : list T) (M N : size_t)
  (u : World T H16) : Prop :=
  (first u = true ->
   (mem_size (mm_A c) / 2 <= N.of_nat (length A))%N /\
   (mem_size (mm_B c) / 2 <= N.of_nat (length B))%N) /\
  (4 * SizeT.mul M N <= mem_size (mm_C c))%N.

End Regions.

(** The size a table row was printed for. *)
Definition row_size (o : Output) : option size_t :=
  match o with
  | OutRow size _ _ _ => Some size
  | _ => None
  end.

(** * Proofs *)

Unset Implicit Arguments.

(** ** Facts about vectors and loops *)

Lemma length_update {A : Type} (l : list A) (n : nat) (x : A) :
  length (update l n x) = length l.
Proof.
  revert n; induction l as [|h t IH]; intros [|n]; simpl; auto.
Qed.

Lemma nth_error_update_same {A : Type} (l : list A) (n : nat) (x : A) :
  n < length l -> nth_error (update l n x) n = Some x.
Proof.
  revert n; induction l as [|h t IH]; intros [|n]; simpl; intros Hn;
    try lia; auto.
  apply IH; lia.
Qed.

Lemma nth_error_update_other {A : Type} (l : list A) (n m : nat) (x : A) :
  n <> m -> nth_error (update l n x) m = nth_error l m.
Proof.
  revert n m; induction l as [|h t IH]; intros [|n] [|m] Hnm; simpl; auto;
    try contradiction.
Qed.

Lemma vec_get_in_bounds {A : Type} (v : list A) (i : N) (d : A) :
  (i < N.of_nat (length v))%N -> vec_get v i = Some (nth (N.to_nat i) v d).
Proof.
  intros Hi; unfold vec_get; apply nth_error_nth'; lia.
Qed.

Lemma vec_set_in_bounds {A : Type} (v : list A) (i : N) (x : A) :
  (i < N.of_nat (length v))%N -> vec_set v i x = Some (update v (N.to_nat i) x).
Proof.
  intros Hi; unfold vec_set.
  destruct (N.ltb_spec i (N.of_nat (length v))); [reflexivity | lia].
Qed.

Lemma vec_get_update_same {A : Type} (v : list A) (i : N) (x : A) :
  (i < N.of_nat (length v))%N -> vec_get (update v (N.to_nat i) x) i = Some x.
Proof.
  intros Hi; unfold vec_get; apply nth_error_update_same; lia.
Qed.

Lemma vec_get_update_other {A : Type} (v : list A) (i q : N) (x : A) :
  i <> q -> vec_get (update v (N.to_nat i) x) q = vec_get v q.
Proof.
  intros Hq; unfold vec_get; apply nth_error_update_other; lia.
Qed.

(** The invariant rule for a counted loop: the loop returns, in a state that
    satisfies the invariant at the bound. *)
Lemma for_loop_invariant {St : Type} (P : N -> St -> Prop) (body : N -> St -> option St) :
  forall (n : nat) (i : N) (s : St),
    P i s ->
    (forall j t, (i <= j < i + N.of_nat n)%N -> P j t ->
                 exists t', body j t = Some t' /\ P (N.succ j) t') ->
    exists s', for_loop n i body s = Some s' /\ P (i + N.of_nat n)%N s'.
Proof.
  induction n as [|n IH]; intros i s Hs Hbody.
  - exists s; split; [reflexivity|]. now replace (i + N.of_nat 0)%N with i by lia.
  - destruct (Hbody i s) as [t [Ht HP]]; [lia | assumption |].
    cbn [for_loop]; rewrite Ht.
    destruct (IH (N.succ i) t HP) as [s' [Hs' HP']].
    + intros j u Hj; apply Hbody; lia.
    + exists s'; split; [assumption|].
      now replace (i + N.of_nat (S n))%N with (N.succ i + N.of_nat n)%N by lia.
Qed.

Lemma for_upto_invariant {St : Type} (P : N -> St -> Prop) (body : N -> St -> option St)
  (bound : N) (s : St) :
  P 0%N s ->
  (forall j t, (j < bound)%N -> P j t -> exists t', body j t = Some t' /\ P (N.succ j) t') ->
  exists s', for_upto bound body s = Some s' /\ P bound s'.
Proof.
  intros Hs Hbody; unfold for_upto.
  destruct (for_loop_invariant P body (N.to_nat bound) 0%N s Hs) as [s' [E HP]].
  - intros j t Hj; apply Hbody; lia.
  - exists s'; split; [assumption|].
    now replace bound with (0 + N.of_nat (N.to_nat bound))%N by lia.
Qed.

Lemma wrap_small (x : N) : (x < SizeT.modulus)%N -> SizeT.wrap x = x.
Proof. intros Hx; unfold SizeT.wrap; now apply N.mod_small. Qed.

Lemma range_succ (k : N) : range (N.succ k) = range k ++ [k].
Proof.
  unfold range. rewrite N2Nat.inj_succ, seq_S, map_app. simpl.
  now rewrite N2Nat.id.
Qed.

(** ** Sample evaluations *)

Example matmul_naive_2x2 :
  matmul_naive [1; 2; 3; 4]%Z [5; 6; 7; 8]%Z 2 2 2 = Some [19; 22; 43; 50]%Z.
Proof. reflexivity. Qed.

Example matmul_cblas_2x2 :
  matmul_cblas sgemm_model [1; 2; 3; 4]%Z [5; 6; 7; 8]%Z 2 2 2
  = Some [17; 23; 39; 53]%Z.
Proof. reflexivity. Qed.

(** Outside the square shapes the call leaves the routine's contract: a
    leading dimension [N] shorter than [K], or reads past the end of [B]. *)
Example matmul_cblas_tall :
  matmul_cblas sgemm_model [1; 2; 3; 4; 5; 6]%Z [5; 6; 7; 8; 9; 10]%Z 2 3 2 = None.
Proof. reflexivity. Qed.

Example matmul_cblas_wide :
  matmul_cblas sgemm_model [1; 2]%Z [5; 6]%Z 2 1 2 = None.
Proof. reflexivity. Qed.

(** With a repeat count of [0] the runner dereferences the end iterator of
    the empty [times]. *)
Example benchmark_zero_repeat :
  benchmark exact_env 1 1 1 0 naive_backend initial_world = Undefined.
Proof. reflexivity. Qed.

(** ** The naive backend returns the product *)

Section NaiveCorrect.

Context {T : Type} `{Scalar T}.
Variables (A B : list T) (M K N : size_t).
Hypothesis HA : is_vector A.
Hypothesis HB : is_vector B.
Hypothesis HMK : (M * K <= N.of_nat (length A))%N.
Hypothesis HKN : (K * N <= N.of_nat (length B))%N.

Lemma naive_index_A (i k : size_t) :
  (i < M)%N -> (k < K)%N ->
  SizeT.add (SizeT.mul i K) k = (i * K + k)%N /\ (i * K + k < N.of_nat (length A))%N.
Proof.
  intros Hi Hk. unfold is_vector in HA.
  assert (i * K + k < M * K)%N by nia.
  unfold SizeT.add, SizeT.mul.
  rewrite (wrap_small (i * K)) by nia.
  rewrite wrap_small by lia. split; [reflexivity | lia].
Qed.

Lemma naive_index_B (k j : size_t) :
  (k < K)%N -> (j < N)%N ->
  SizeT.add (SizeT.mul k N) j = (k * N + j)%N /\ (k * N + j < N.of_nat (length B))%N.
Proof.
  intros Hk Hj. unfold is_vector in HB.
  assert (k * N + j < K * N)%N by nia.
  unfold SizeT.add, SizeT.mul.
  rewrite (wrap_small (k * N)) by nia.
  rewrite wrap_small by lia. split; [reflexivity | lia].
Qed.

(** The innermost loop returns the fold [dot]. *)
Lemma naive_inner_loop (i j : size_t) :
  (i < M)%N -> (j < N)%N ->
  for_upto K (naive_step A B K N i j) fzero = Some (dot A B K N i j).
Proof.
  intros Hi Hj.
  destruct (for_upto_invariant
              (fun k sum => sum = fold_left
                 (fun sum k => fadd sum (fmul (entry A (i * K + k)) (entry B (k * N + j))))
                 (range k) fzero)
              (naive_step A B K N i j) K fzero) as [sum [E Hsum]].
  - reflexivity.
  - intros k sum Hk ->.
    destruct (naive_index_A i k Hi Hk) as [EA LA].
    destruct (naive_index_B k j Hk Hj) as [EB LB].
    unfold naive_step. rewrite EA, EB.
    rewrite (vec_get_in_bounds A _ fzero LA), (vec_get_in_bounds B _ fzero LB).
    eexists; split; [reflexivity|].
    rewrite range_succ, fold_left_app. reflexivity.
  - rewrite E, Hsum. reflexivity.
Qed.

Hypothesis HMN : (M * N < SizeT.modulus)%N.

Local Abbreviation filled := (naive_filled A B M K N).

Lemma naive_store (i j : size_t) (C : list T) :
  (i < M)%N -> (j < N)%N -> filled (i * N + j) C ->
  exists C',
    vec_set C (SizeT.add (SizeT.mul i N) j) (dot A B K N i j) = Some C' /\
    filled (i * N + N.succ j) C'.
Proof.
  intros Hi Hj [HL HC].
  assert (Hp : (i * N + j < M * N)%N) by nia.
  unfold SizeT.add, SizeT.mul.
  rewrite (wrap_small (i * N)) by nia.
  rewrite wrap_small by lia.
  rewrite vec_set_in_bounds by lia.
  eexists; split; [reflexivity|]. split.
  - rewrite length_update. exact HL.
  - intros q Hq. destruct (N.eq_dec q (i * N + j)) as [-> | Hne].
    + rewrite vec_get_update_same by lia.
      f_equal. f_equal.
      * apply N.div_unique with (r := j); lia.
      * apply N.mod_unique with (q := i); lia.
    + rewrite vec_get_update_other by congruence. apply HC. lia.
Qed.

Lemma naive_row (i : size_t) (C : list T) :
  (i < M)%N -> filled (i * N) C ->
  exists C',
    for_upto N (fun j C =>
      match for_upto K (naive_step A B K N i j) fzero with
      | Some sum => vec_set C (SizeT.add (SizeT.mul i N) j) sum
      | None => None
      end) C = Some C' /\ filled (N.succ i * N) C'.
Proof.
  intros Hi HC.
  destruct (for_upto_invariant (fun j C => filled (i * N + j) C)
              (fun j C =>
                 match for_upto K (naive_step A B K N i j) fzero with
                 | Some sum => vec_set C (SizeT.add (SizeT.mul i N) j) sum
                 | None => None
                 end) N C) as [C' [E HC']].
  - now rewrite N.add_0_r.
  - intros j C1 Hj HC1. rewrite (naive_inner_loop i j Hi Hj).
    now apply naive_store.
  - exists C'; split; [exact E|].
    now replace (N.succ i * N)%N with (i * N + N)%N by lia.
Qed.

Lemma matmul_naive_filled :
  exists C, matmul_naive A B M K N = Some C /\ filled (M * N) C.
Proof.
  unfold matmul_naive.
  apply (for_upto_invariant (fun i C => filled (i * N) C)).
  - split.
    + rewrite repeat_length, N2Nat.id. now apply wrap_small.
    + intros q Hq; lia.
  - intros i C Hi HC. now apply naive_row.
Qed.

End NaiveCorrect.

(** What the naive backend returns when the product [M * N] fits a [size_t]. *)
Lemma matmul_naive_correct {T : Type} `{Scalar T} (A B : list T) (M K N : size_t) :
  is_vector A -> is_vector B ->
  (M * K <= N.of_nat (length A))%N -> (K * N <= N.of_nat (length B))%N ->
  (M * N < SizeT.modulus)%N ->
  exists C,
    matmul_naive A B M K N = Some C /\
    N.of_nat (length C) = (M * N)%N /\
    forall i j, (i < M)%N -> (j < N)%N ->
                vec_get C (i * N + j) = Some (dot A B K N i j).
Proof.
  intros HA HB HMK HKN HMN.
  destruct (matmul_naive_filled A B M K N HA HB HMK HKN HMN) as [C [E [HL HC]]].
  exists C; split; [exact E|]; split; [exact HL|].
  intros i j Hi Hj.
  rewrite HC by nia. f_equal. f_equal.
  - symmetry. apply N.div_unique with (r := j); lia.
  - symmetry. apply N.mod_unique with (q := i); lia.
Qed.

(** ** The routine's model on a square right operand *)

Lemma to_int_small (x : N) : (x < 2147483648)%N -> to_int x = Z.of_N x.
Proof.
  intros Hx; unfold to_int.
  rewrite Z.mod_small; lia.
Qed.

Section GemmCorrect.

Context {T : Type} `{Scalar T}.
Hypothesis exact : ExactScalar T.
Variables (A B : list T) (M N : size_t).
Hypothesis HM : (M < 2147483648)%N.
Hypothesis HN : (1 <= N < 2147483648)%N.
Hypothesis HA : (M * N <= N.of_nat (length A))%N.
Hypothesis HB : (N * N <= N.of_nat (length B))%N.

(** The routine's dot product for a square, transposed right operand. *)
Lemma gemm_inner_loop (i j : size_t) :
  (i < M)%N -> (j < N)%N ->
  for_upto N (gemm_step CblasRowMajor CblasNoTrans CblasTrans A N B N i j) fzero
  = Some (dot_transposed A B N N i j).
Proof.
  intros Hi Hj.
  destruct (for_upto_invariant
              (fun k sum => sum = fold_left
                 (fun sum k => fadd sum (fmul (entry A (i * N + k)) (entry B (j * N + k))))
                 (range k) fzero)
              (gemm_step CblasRowMajor CblasNoTrans CblasTrans A N B N i j) N fzero)
    as [sum [E Hsum]].
  - reflexivity.
  - intros k sum Hk ->.
    unfold gemm_step, op_index, stored_index.
    rewrite (vec_get_in_bounds A _ fzero), (vec_get_in_bounds B _ fzero) by nia.
    eexists; split; [reflexivity|].
    rewrite range_succ, fold_left_app. reflexivity.
  - rewrite E, Hsum. reflexivity.
Qed.

Local Abbreviation filled := (gemm_filled A B M N).

Lemma gemm_store (i j : size_t) (C : list T) :
  (i < M)%N -> (j < N)%N -> filled (i * N + j) C ->
  exists C',
    match vec_get C (stored_index CblasRowMajor N i j) with
    | Some c =>
        vec_set C (stored_index CblasRowMajor N i j)
          (fadd (fmul fone (dot_transposed A B N N i j)) (fmul fzero c))
    | None => None
    end = Some C' /\ filled (i * N + N.succ j) C'.
Proof.
  intros Hi Hj [HL HC].
  assert (Hp : (i * N + j < M * N)%N) by nia.
  unfold stored_index.
  rewrite (vec_get_in_bounds C _ fzero) by lia.
  rewrite vec_set_in_bounds by lia.
  rewrite (fmul_one_l exact), (fmul_zero_l exact), (fadd_zero_r exact).
  eexists; split; [reflexivity|]. split.
  - rewrite length_update. exact HL.
  - intros q Hq. destruct (N.eq_dec q (i * N + j)) as [-> | Hne].
    + rewrite vec_get_update_same by lia.
      f_equal. f_equal.
      * apply N.div_unique with (r := j); lia.
      * apply N.mod_unique with (q := i); lia.
    + rewrite vec_get_update_other by congruence. apply HC. lia.
Qed.

Lemma matmul_cblas_filled :
  exists C, matmul_cblas sgemm_model A B M N N = Some C /\ filled (M * N) C.
Proof.
  unfold matmul_cblas, sgemm_model.
  rewrite !to_int_small by lia.
  replace (gemm_legal _ _ _ _ _ _ _ _ _) with true
    by (unfold gemm_legal, minor_dim; symmetry; rewrite !andb_true_iff;
        repeat split; apply Z.leb_le; lia).
  rewrite !N2Z.id.
  apply (for_upto_invariant (fun i C => filled (i * N) C)).
  - split.
    + rewrite repeat_length, N2Nat.id. apply wrap_small.
      unfold SizeT.modulus. nia.
    + intros q Hq; lia.
  - intros i C Hi HC.
    destruct (for_upto_invariant (fun j C => filled (i * N + j) C)
              (fun j C =>
                 match for_upto N
                         (gemm_step CblasRowMajor CblasNoTrans CblasTrans A N B N i j)
                         fzero with
                 | Some dot =>
                     let p := stored_index CblasRowMajor N i j in
                     match vec_get C p with
                     | Some c => vec_set C p (fadd (fmul fone dot) (fmul fzero c))
                     | None => None
                     end
                 | None => None
                 end) N C) as [C' [E HC']].
    + now rewrite N.add_0_r.
    + intros j C1 Hj HC1. rewrite (gemm_inner_loop i j Hi Hj).
      now apply gemm_store.
    + exists C'; split; [exact E|].
      now replace (N.succ i * N)%N with (i * N + N)%N by lia.
Qed.

End GemmCorrect.

(** ** The transposed operand *)

Lemma fold_left_ext_in {A X : Type} (f g : A -> X -> A) (l : list X) :
  (forall a x, In x l -> f a x = g a x) ->
  forall a, fold_left f l a = fold_left g l a.
Proof.
  induction l as [|x l IH]; intros Hfg a; simpl; [reflexivity|].
  rewrite Hfg by now left. apply IH. intros b y Hy. apply Hfg. now right.
Qed.

Lemma in_range (n k : N) : In k (range n) -> (k < n)%N.
Proof.
  unfold range. rewrite in_map_iff. intros (i & <- & Hi).
  apply in_seq in Hi. lia.
Qed.

Lemma range_length (n : N) : length (range n) = N.to_nat n.
Proof.
  unfold range. now rewrite length_map, length_seq.
Qed.

Lemma nth_error_range (n p : N) :
  (p < n)%N -> nth_error (range n) (N.to_nat p) = Some p.
Proof.
  intros Hp. unfold range.
  rewrite nth_error_map, nth_error_seq.
  destruct (Nat.ltb_spec (N.to_nat p) (N.to_nat n)); [|lia].
  cbn. now rewrite N2Nat.id.
Qed.

Section Transpose.

Context {T : Type} `{Scalar T}.

Lemma transpose_length (rows cols : size_t) (B : list T) :
  N.of_nat (length (transpose rows cols B)) = (rows * cols)%N.
Proof.
  unfold transpose. rewrite length_map, range_length. lia.
Qed.

Lemma entry_transpose (rows cols : size_t) (B : list T) (p : size_t) :
  (p < rows * cols)%N ->
  entry (transpose rows cols B) p = entry B ((p mod rows) * cols + p / rows).
Proof.
  intros Hp. unfold transpose, entry at 1.
  apply nth_error_nth.
  rewrite nth_error_map, (nth_error_range _ _ Hp). reflexivity.
Qed.

(** The naive dot product against the transposed operand is the routine's
    dot product against the operand itself. *)
Lemma dot_transpose (A B : list T) (N i j : size_t) :
  (j < N)%N ->
  dot A (transpose N N B) N N i j = dot_transposed A B N N i j.
Proof.
  intros Hj. unfold dot, dot_transposed.
  apply fold_left_ext_in. intros sum k Hk. apply in_range in Hk.
  rewrite entry_transpose by nia.
  replace ((k * N + j) mod N)%N with j
    by (apply N.mod_unique with (q := k); lia).
  replace ((k * N + j) / N)%N with k
    by (apply N.div_unique with (r := j); lia).
  reflexivity.
Qed.

End Transpose.

(** ** Facts about the statistics *)

Section Statistics.

Local Open Scope R_scope.

Lemma fold_left_Rsum (l : list R) (a : R) :
  fold_left (fun sum value => sum + value) l a = a + Rsum l.
Proof.
  revert a; induction l as [|x l IH]; intros a; simpl.
  - lra.
  - rewrite IH. lra.
Qed.

Lemma fold_left_squares (mean : R) (l : list R) (a : R) :
  fold_left (fun sum value => sum + (value - mean) * (value - mean)) l a
  = a + Rsum (map (fun x => (x - mean) * (x - mean)) l).
Proof.
  revert a; induction l as [|x l IH]; intros a; simpl.
  - lra.
  - rewrite IH. lra.
Qed.

Lemma calculateAverage_mean (S : list R) : calculateAverage S = arithmetic_mean S.
Proof.
  unfold calculateAverage, arithmetic_mean. rewrite fold_left_Rsum. f_equal. lra.
Qed.

Lemma calculateStdDev_population (S : list R) :
  calculateStdDev S = population_stddev S.
Proof.
  unfold calculateStdDev, population_stddev.
  rewrite fold_left_squares, calculateAverage_mean. f_equal. f_equal. lra.
Qed.

Lemma INR_length_pos (S : list R) : S <> [] -> 0 < INR (length S).
Proof.
  destruct S as [|x S]; [congruence|]. intros _.
  apply lt_0_INR. simpl. lia.
Qed.

Lemma min_element_from_lower (l : list R) :
  forall smallest,
    min_element_from smallest l <= smallest /\
    forall x, In x l -> min_element_from smallest l <= x.
Proof.
  induction l as [|y l IH]; intros smallest; simpl.
  - split; [lra | tauto].
  - destruct (Rlt_dec y smallest) as [Hlt | Hge].
    + destruct (IH y) as [Hy Hl]. split; [lra|].
      intros x [-> | Hx]; [exact Hy | now apply Hl].
    + destruct (IH smallest) as [Hs Hl]. split; [exact Hs|].
      intros x [<- | Hx]; [lra | now apply Hl].
Qed.

Lemma min_element_lower (S : list R) (m : R) :
  min_element S = Some m -> forall x, In x S -> m <= x.
Proof.
  destruct S as [|y l]; simpl; [discriminate|].
  destruct (min_element_from_lower l y) as [Hy Hl].
  intros [= <-] x [<- | Hx]; [exact Hy | now apply Hl].
Qed.

Lemma Rsum_lower (m : R) (l : list R) :
  (forall x, In x l -> m <= x) -> INR (length l) * m <= Rsum l.
Proof.
  induction l as [|y l IH]; intros Hm.
  - simpl. lra.
  - change (length (y :: l)) with (S (length l)). rewrite S_INR. simpl Rsum.
    assert (m <= y) by (apply Hm; now left).
    assert (INR (length l) * m <= Rsum l) by (apply IH; intros; apply Hm; now right).
    lra.
Qed.

Lemma min_le_mean (S : list R) (m : R) :
  S <> [] -> min_element S = Some m -> m <= arithmetic_mean S.
Proof.
  intros Hne Hm. unfold arithmetic_mean.
  pose proof (INR_length_pos S Hne) as Hn.
  pose proof (Rsum_lower m S (min_element_lower S m Hm)) as Hs.
  apply Rmult_le_reg_r with (r := INR (length S)); [exact Hn|].
  replace (Rsum S / INR (length S) * INR (length S)) with (Rsum S) by (field; lra).
  lra.
Qed.

Lemma Rsum_squares_nonneg (c : R) (l : list R) :
  0 <= Rsum (map (fun x => (x - c) * (x - c)) l).
Proof.
  induction l as [|y l IH]; simpl; [lra|].
  pose proof (Rle_0_sqr (y - c)) as Hy. unfold Rsqr in Hy. lra.
Qed.

Lemma square_deviation_zero (x c : R) : (x - c) * (x - c) = 0 -> x = c.
Proof.
  intros Hz. destruct (Rmult_integral _ _ Hz); lra.
Qed.

Lemma Rsum_squares_zero (c : R) (l : list R) :
  Rsum (map (fun x => (x - c) * (x - c)) l) = 0 <-> forall x, In x l -> x = c.
Proof.
  induction l as [|y l IH]; simpl.
  - split; [tauto | reflexivity].
  - pose proof (Rsum_squares_nonneg c l) as Hl.
    split.
    + intros Hz.
      pose proof (Rle_0_sqr (y - c)) as Hsq. unfold Rsqr in Hsq.
      assert (Hy : (y - c) * (y - c) = 0) by lra.
      assert (Hr : Rsum (map (fun x => (x - c) * (x - c)) l) = 0) by lra.
      intros x [<- | Hx]; [now apply square_deviation_zero | now apply IH].
    + intros Hall.
      assert (y = c) by (apply Hall; now left).
      assert (Hr : Rsum (map (fun x => (x - c) * (x - c)) l) = 0)
        by (apply IH; intros; apply Hall; now right).
      subst y. rewrite Hr. lra.
Qed.

Lemma Rsum_constant (c : R) (l : list R) :
  (forall x, In x l -> x = c) -> Rsum l = INR (length l) * c.
Proof.
  induction l as [|y l IH]; intros Hall.
  - simpl. lra.
  - change (length (y :: l)) with (S (length l)). rewrite S_INR. simpl Rsum.
    rewrite IH by (intros; apply Hall; now right).
    rewrite (Hall y) by now left. lra.
Qed.

Lemma population_stddev_zero (S : list R) :
  S <> [] -> (population_stddev S = 0 <-> all_equal S).
Proof.
  intros Hne. pose proof (INR_length_pos S Hne) as Hn.
  unfold population_stddev.
  set (mean := arithmetic_mean S).
  pose proof (Rsum_squares_nonneg mean S) as Hsq.
  assert (Hq : 0 <= Rsum (map (fun x => (x - mean) * (x - mean)) S) / INR (length S)).
  { apply Rmult_le_pos; [exact Hsq|]. left. now apply Rinv_0_lt_compat. }
  split.
  - intros Hz. apply sqrt_eq_0 in Hz; [|exact Hq].
    assert (Hs : Rsum (map (fun x => (x - mean) * (x - mean)) S) = 0).
    { apply Rmult_eq_reg_r with (r := / INR (length S)).
      - rewrite Rmult_0_l. exact Hz.
      - apply Rinv_neq_0_compat. lra. }
    intros x y Hx Hy.
    rewrite (proj1 (Rsum_squares_zero mean S) Hs x Hx).
    now rewrite (proj1 (Rsum_squares_zero mean S) Hs y Hy).
  - intros Heq.
    destruct S as [|c S']; [congruence|].
    assert (Hall : forall x, In x (c :: S') -> x = c)
      by (intros x Hx; apply Heq; [exact Hx | now left]).
    assert (Hmean : mean = c).
    { unfold mean, arithmetic_mean. rewrite (Rsum_constant c _ Hall).
      field. lra. }
    rewrite (proj2 (Rsum_squares_zero mean (c :: S'))).
    + unfold Rdiv. rewrite Rmult_0_l. apply sqrt_0.
    + intros x Hx. rewrite Hmean. now apply Hall.
Qed.

Lemma min_element_from_in (l : list R) :
  forall smallest,
    min_element_from smallest l = smallest \/ In (min_element_from smallest l) l.
Proof.
  induction l as [|y l IH]; intros smallest; simpl.
  - now left.
  - destruct (Rlt_dec y smallest).
    + destruct (IH y) as [-> | Hin]; [right; now left | right; now right].
    + destruct (IH smallest) as [-> | Hin]; [now left | right; now right].
Qed.

Lemma min_element_in (S : list R) (m : R) : min_element S = Some m -> In m S.
Proof.
  destruct S as [|y l]; simpl; [discriminate|]. intros [= <-].
  destruct (min_element_from_in l y) as [-> | Hin]; [now left | now right].
Qed.

End Statistics.

(** ** Facts about programs with effects *)

Lemma for_prog_invariant {W St : Type} (P : N -> St -> W -> Prop)
  (body : N -> St -> Prog W St) :
  forall (n : nat) (i : N) (s : St) (w : W),
    P i s w ->
    (forall j t u, (i <= j < i + N.of_nat n)%N -> P j t u ->
                   exists t' u', body j t u = Ok t' u' /\ P (N.succ j) t' u') ->
    exists s' w', for_prog n i body s w = Ok s' w' /\ P (i + N.of_nat n)%N s' w'.
Proof.
  induction n as [|n IH]; intros i s w Hs Hbody.
  - exists s, w; split; [reflexivity|].
    now replace (i + N.of_nat 0)%N with i by lia.
  - destruct (Hbody i s w) as [t [u [Ht HP]]]; [lia | assumption |].
    cbn [for_prog]. unfold bind at 1. rewrite Ht.
    destruct (IH (N.succ i) t u HP) as [s' [w' [Hs' HP']]].
    + intros j t' u' Hj; apply Hbody; lia.
    + exists s', w'; split; [assumption|].
      now replace (i + N.of_nat (S n))%N with (N.succ i + N.of_nat n)%N by lia.
Qed.

Section HarnessFacts.

Context {T H16 : Type} `{Scalar T}.
Variable env : Environment T H16.

Local Abbreviation world := (World T H16).

(** What [benchmark] does for a backend that returns: the invariant [Q],
    indexed by the number of calls made, speaks of the driver trace, of the
    flag [first] and of the output, which the runner itself never touches. *)
Lemma benchmark_runs (Q : nat -> list (Event H16) -> bool -> list Output -> Prop)
  (M K N R : size_t) (func : backend) (w : world) :
  (1 <= R)%N ->
  Q 0 (trace w) (first w) (stdout w) ->
  (forall k u, k < N.to_nat R -> Q k (trace u) (first u) (stdout u) ->
     exists C u',
       func (random_matrix env (generators w) M K)
            (random_matrix env (S (generators w)) K N) M K N u = Ok C u' /\
       Q (S k) (trace u') (first u') (stdout u') /\ calls u' = calls u) ->
  exists times m w',
    benchmark_times env M K N R func w = Ok times w' /\
    benchmark env M K N R func w
    = Ok (m, calculateAverage times, calculateStdDev times) w' /\
    min_element times = Some m /\
    length times = N.to_nat R /\
    Q (N.to_nat R) (trace w') (first w') (stdout w') /\
    calls w' = repeat (random_matrix env (generators w) M K,
                       random_matrix env (S (generators w)) K N) (N.to_nat R)
               ++ calls w.
Proof.
  intros HR HQ Hfunc.
  set (A := random_matrix env (generators w) M K) in *.
  set (B := random_matrix env (S (generators w)) K N) in *.
  assert (Htimes :
    exists times w',
      benchmark_times env M K N R func w = Ok times w' /\
      length times = N.to_nat R /\
      Q (N.to_nat R) (trace w') (first w') (stdout w') /\
      calls w' = repeat (A, B) (N.to_nat R) ++ calls w).
  { unfold benchmark_times, bind, make_random_matrix, now.
    cbn [trace stdout first contexts regions generators clock_reads calls].
    fold A B.
    match goal with
    | |- context [for_prog _ _ _ _ ?w1] => set (w0 := w1)
    end.
    destruct (for_prog_invariant
                (fun j times u =>
                   Q (N.to_nat j) (trace u) (first u) (stdout u) /\
                   calls u = repeat (A, B) (N.to_nat j) ++ calls w /\
                   length times = N.to_nat j)
                (timed_call env A B M K N func) (N.to_nat R) 0%N [] w0)
      as [times [w' [E [HQ' [Hcalls Hlen]]]]].
    - repeat split; assumption.
    - intros j times u Hj [HQj [Hc Hl]].
      unfold timed_call, bind, now, record_call. cbn [trace first calls].
      match goal with
      | |- context [func A B M K N ?u1] =>
          destruct (Hfunc (N.to_nat j) u1) as [C [u' [EC [HQ1 Hc1]]]];
          [lia | exact HQj | rewrite EC]
      end.
      eexists; eexists; split; [reflexivity|]. cbn [trace first calls stdout].
      rewrite N2Nat.inj_succ. repeat split.
      + exact HQ1.
      + rewrite Hc1. cbn [calls]. rewrite Hc. reflexivity.
      + rewrite length_app, Hl. simpl. lia.
    - replace (0 + N.of_nat (N.to_nat R))%N with R in * by lia.
      exists times, w'. split; [exact E|]. split; [exact Hlen|]. split; assumption. }
  destruct Htimes as (times & w' & E & Hlen & HQ' & Hcalls).
  destruct times as [|x times]; [simpl in Hlen; lia|].
  exists (x :: times), (min_element_from x times), w'.
  split; [exact E|]. split.
  { unfold benchmark, bind. rewrite E. reflexivity. }
  split; [reflexivity|]. split; [exact Hlen|]. split; assumption.
Qed.

End HarnessFacts.

(** ** Facts about the backends *)

Ltac simpl_world :=
  cbn [trace stdout first contexts regions generators clock_reads calls pending].

(** Runs the primitives of a program on the state at hand. *)
Ltac run_prog :=
  cbn [bind ret abort log print get_first set_first record_call
       rknn_create_mem rknn_matmul_set_io_mem rknn_matmul_run
       trace stdout first contexts regions generators clock_reads calls pending
       app].

Lemma firstn_succ_nth_error {A : Type} (l : list A) :
  forall (n : nat) (x : A),
    nth_error l n = Some x -> firstn (S n) l = firstn n l ++ [x].
Proof.
  induction l as [|h t IH]; intros [|n] x E; simpl in E; try discriminate.
  - now injection E as ->.
  - change (h :: firstn (S n) t = h :: (firstn n t ++ [x])).
    f_equal. now apply IH.
Qed.

Section BackendFacts.

Context {T H16 : Type} `{Scalar T}.
Variable env : Environment T H16.

Local Abbreviation world := (World T H16).

Lemma random_matrix_length (g : nat) (M N : size_t) :
  (M * N < SizeT.modulus)%N ->
  N.of_nat (length (random_matrix env g M N)) = (M * N)%N.
Proof.
  intros HMN. unfold random_matrix, SizeT.mul.
  rewrite length_map, length_seq, wrap_small by exact HMN. lia.
Qed.

Lemma naive_backend_returns (A B : list T) (M K N : size_t) (u : world) :
  N.of_nat (length A) = (M * K)%N -> N.of_nat (length B) = (K * N)%N ->
  shape_fits M K N ->
  exists C u',
    naive_backend A B M K N u = Ok C u' /\
    trace u' = EvNaive :: trace u /\ first u' = first u /\
    calls u' = calls u /\ stdout u' = stdout u.
Proof.
  intros HA HB (HMK & HKN & HMN).
  destruct (matmul_naive_correct A B M K N) as [C [E _]];
    try (unfold is_vector; lia).
  exists C. eexists. unfold naive_backend, bind, log. rewrite E.
  split; [reflexivity|]. simpl_world. repeat split.
Qed.

Lemma cblas_backend_returns (A B : list T) (M K N : size_t) (u : world) :
  N.of_nat (length A) = (M * K)%N -> N.of_nat (length B) = (K * N)%N ->
  collaborators_ok env M K N ->
  exists C u',
    cblas_backend env A B M K N u = Ok C u' /\
    trace u' = EvSgemm :: trace u /\ first u' = first u /\
    calls u' = calls u /\ stdout u' = stdout u.
Proof.
  intros HA HB [Hgemm _].
  destruct (Hgemm A B HA HB) as [C E].
  exists C. eexists. unfold cblas_backend, bind, log. rewrite E.
  split; [reflexivity|]. simpl_world. repeat split.
Qed.

Lemma convert_loop (size : size_t) (data : list T) :
  (size <= N.of_nat (length data))%N ->
  for_upto size (convert_step env data) [] = Some (converted env size data).
Proof.
  intros Hsize.
  destruct (for_upto_invariant
              (fun k ptr => ptr = converted env k data)
              (convert_step env data) size []) as [ptr [E ->]].
  - reflexivity.
  - intros k ptr Hk ->. unfold convert_step.
    destruct (vec_get data k) as [x|] eqn:Ex.
    + eexists; split; [reflexivity|]. unfold converted.
      rewrite N2Nat.inj_succ, (firstn_succ_nth_error data _ x Ex), map_app.
      reflexivity.
    + unfold vec_get in Ex. apply nth_error_None in Ex. lia.
  - exact E.
Qed.

Lemma set_matrix_data_returns (c : nat) (mem : rknn_tensor_mem) (attr : Slot)
  (data : list T) (u : world) :
  (mem_size mem / 2 <= N.of_nat (length data))%N ->
  exists u',
    set_matrix_data env c mem attr data u = Ok tt u' /\
    trace u' = EvSetIoMem c (mem_id mem) attr
               :: EvStore (mem_id mem) (converted env (mem_size mem / 2) data)
               :: trace u /\
    first u' = first u /\ calls u' = calls u /\ stdout u' = stdout u.
Proof.
  intros Hsize. eexists.
  unfold set_matrix_data, bind, rknn_matmul_set_io_mem, log.
  rewrite (convert_loop _ _ Hsize).
  split; [reflexivity|]. simpl_world. repeat split.
Qed.

(** A call of the closure: the inputs are handed over exactly when the flag
    is still set, and the flag is cleared. *)
Lemma rknn_call_returns (c : RKNNMatMulCtx) (A B : list T) (M K N : size_t)
  (u : world) :
  (mem_size (mm_A c) / 2 <= N.of_nat (length A))%N ->
  (mem_size (mm_B c) / 2 <= N.of_nat (length B))%N ->
  (4 * SizeT.mul M N <= mem_size (mm_C c))%N ->
  exists C u',
    rknn_call env c A B M K N u = Ok C u' /\
    trace u' = EvMatmulRun (ctx c)
               :: (if first u then upload_events env c A B else []) ++ trace u /\
    first u' = false /\ calls u' = calls u /\ stdout u' = stdout u.
Proof.
  intros HsA HsB HsC.
  unfold rknn_call, bind at 1, get_first.
  destruct (first u) eqn:Hf.
  - unfold bind at 1 2 3, set_first.
    match goal with
    | |- context [set_matrix_data env _ _ SlotA A ?u1] =>
        destruct (set_matrix_data_returns (ctx c) (mm_A c) SlotA A u1 HsA)
          as [u2 [E2 [Ht2 [Hf2 [Hc2 Ho2]]]]]; rewrite E2
    end.
    destruct (set_matrix_data_returns (ctx c) (mm_B c) SlotB B u2 HsB)
      as [u3 [E3 [Ht3 [Hf3 [Hc3 Ho3]]]]]. rewrite E3.
    unfold bind, rknn_matmul_run, log, read_output. simpl_world.
    destruct (N.leb_spec (4 * SizeT.mul M N) (mem_size (mm_C c))); [|lia].
    eexists; eexists; split; [reflexivity|]. simpl_world.
    rewrite Ht3, Ht2, Hf3, Hf2, Hc3, Hc2, Ho3, Ho2. simpl_world.
    repeat split.
  - unfold bind, ret, rknn_matmul_run, log, read_output. simpl_world.
    destruct (N.leb_spec (4 * SizeT.mul M N) (mem_size (mm_C c))); [|lia].
    eexists; eexists; split; [reflexivity|]. simpl_world.
    rewrite Hf. repeat split.
Qed.

Lemma make_matmul_returns (M K N : Z) (w : world) :
  (0 <= create_status env (trace w) M K N)%Z ->
  exists c w',
    make_matmul env M K N w = Ok c w' /\
    trace w' = setup_events c (create_status env (trace w) M K N) ++ trace w /\
    first w' = first w /\ stdout w' = stdout w /\ calls w' = calls w /\
    generators w' = generators w /\
    (forall s, mem_size (match s with
                         | SlotA => mm_A c | SlotB => mm_B c | SlotC => mm_C c
                         end) = io_attr_size env (trace w) M K N s).
Proof.
  destruct w as [t o f cs rs g k cl pd]. simpl_world. intros Hst.
  unfold make_matmul, bind at 1, rknn_matmul_create. simpl_world.
  destruct (Z.ltb_spec (create_status env t M K N) 0); [lia|].
  run_prog.
  eexists; eexists; split; [reflexivity|]. simpl_world.
  unfold setup_events. cbn [ctx mm_A mm_B mm_C mm_M mm_K mm_N mem_id mem_size app].
  repeat split. intros []; reflexivity.
Qed.

Lemma make_matmul_aborts (M K N : Z) (w : world) :
  (create_status env (trace w) M K N < 0)%Z ->
  exists w',
    make_matmul env M K N w = Aborted w' /\
    trace w' = EvMatmulCreate M K N (create_status env (trace w) M K N) :: trace w /\
    (stdout_interactive env = true ->
     stdout w' = OutCreateFail (create_status env (trace w) M K N)
                 :: pending w ++ stdout w /\
     pending w' = []) /\
    (stdout_interactive env = false ->
     stdout w' = stdout w /\
     pending w' = OutCreateFail (create_status env (trace w) M K N) :: pending w).
Proof.
  destruct w as [t o f cs rs g k cl pd]. simpl_world. intros Hst.
  unfold make_matmul, bind at 1, rknn_matmul_create. simpl_world.
  destruct (Z.ltb_spec (create_status env t M K N) 0); [|lia].
  unfold bind, printf, abort.
  destruct (stdout_interactive env); simpl_world;
    (eexists; split; [reflexivity|]); simpl_world;
    (split; [reflexivity|]); split; intros Hi; try discriminate;
    split; reflexivity.
Qed.

End BackendFacts.

(** ** What the backends and the runner leave alone *)

Lemma for_prog_returned {W St : Type} (P : N -> W -> Prop)
  (body : N -> St -> Prog W St) :
  (forall j t u t' u', P j u -> body j t u = Ok t' u' -> P (N.succ j) u') ->
  forall (n : nat) (i : N) (s : St) (w : W) (s' : St) (w' : W),
    P i w -> for_prog n i body s w = Ok s' w' -> P (i + N.of_nat n)%N w'.
Proof.
  intros Hbody. induction n as [|n IH]; intros i s w s' w' HP E.
  - cbn [for_prog ret] in E. injection E as _ <-.
    now replace (i + N.of_nat 0)%N with i by lia.
  - cbn [for_prog] in E. unfold bind in E.
    destruct (body i s w) as [t u| |] eqn:Eb; try discriminate.
    replace (i + N.of_nat (S n))%N with (N.succ i + N.of_nat n)%N by lia.
    apply (IH (N.succ i) t u s' w'); [exact (Hbody i s w t u HP Eb) | exact E].
Qed.

Section OperandFacts.

Context {T H16 : Type} `{Scalar T}.
Variable env : Environment T H16.

Local Abbreviation world := (World T H16).

Lemma naive_backend_frame (A B : list T) (M K N : size_t) (u u' : world) (C : list T) :
  naive_backend A B M K N u = Ok C u' ->
  generators u' = generators u /\ calls u' = calls u /\
  pending u' = pending u.
Proof.
  unfold naive_backend, bind, log, lift_option, ret, undefined.
  destruct (matmul_naive A B M K N); [|discriminate].
  intros [= _ <-]. repeat split.
Qed.

Lemma cblas_backend_frame (A B : list T) (M K N : size_t) (u u' : world) (C : list T) :
  cblas_backend env A B M K N u = Ok C u' ->
  generators u' = generators u /\ calls u' = calls u /\
  pending u' = pending u.
Proof.
  unfold cblas_backend, bind, log, lift_option, ret, undefined.
  destruct (matmul_cblas (cblas_sgemm env) A B M K N); [|discriminate].
  intros [= _ <-]. repeat split.
Qed.

Lemma set_matrix_data_frame (c : nat) (mem : rknn_tensor_mem) (attr : Slot)
  (data : list T) (u u' : world) :
  set_matrix_data env c mem attr data u = Ok tt u' ->
  generators u' = generators u /\ calls u' = calls u /\
  pending u' = pending u.
Proof.
  unfold set_matrix_data, bind, rknn_matmul_set_io_mem, log, lift_option, ret, undefined.
  destruct (for_upto (mem_size mem / 2) (convert_step env data) []); [|discriminate].
  intros [= <-]. repeat split.
Qed.

Lemma rknn_call_frame (c : RKNNMatMulCtx) (A B : list T) (M K N : size_t)
  (u u' : world) (C : list T) :
  rknn_call env c A B M K N u = Ok C u' ->
  generators u' = generators u /\ calls u' = calls u /\
  pending u' = pending u.
Proof.
  unfold rknn_call, bind, get_first, set_first.
  destruct (first u).
  - destruct (set_matrix_data env (ctx c) (mm_A c) SlotA A _) as [[] u1| |] eqn:E1;
      try discriminate.
    destruct (set_matrix_data env (ctx c) (mm_B c) SlotB B u1) as [[] u2| |] eqn:E2;
      try discriminate.
    apply set_matrix_data_frame in E1, E2. cbn [generators calls pending] in E1.
    unfold rknn_matmul_run, log, read_output. simpl_world.
    destruct (4 * SizeT.mul M N <=? mem_size (mm_C c))%N; [|discriminate].
    intros [= _ <-]. simpl_world.
    destruct E1 as (Hg1 & Hc1 & Hp1), E2 as (Hg2 & Hc2 & Hp2).
    repeat split; congruence.
  - unfold ret, rknn_matmul_run, log, read_output. simpl_world.
    destruct (4 * SizeT.mul M N <=? mem_size (mm_C c))%N; [|discriminate].
    intros [= _ <-]. repeat split.
Qed.

Lemma make_matmul_frame (M K N : Z) (w w' : world) (c : RKNNMatMulCtx) :
  make_matmul env M K N w = Ok c w' ->
  generators w' = generators w /\ calls w' = calls w /\
  pending w' = pending w.
Proof.
  destruct w as [t o f cs rs g k cl pd].
  unfold make_matmul, bind at 1, rknn_matmul_create. simpl_world.
  destruct (create_status env t M K N <? 0)%Z.
  - unfold bind, printf, abort. destruct (stdout_interactive env); discriminate.
  - run_prog. intros [= _ <-]. repeat split.
Qed.

Lemma benchmark_frame (M K N R : size_t) (func : @backend T H16) (w w' : world)
  (r : BenchmarkResult) :
  (forall A B u C u', func A B M K N u = Ok C u' ->
                      generators u' = generators u /\ calls u' = calls u /\
                      pending u' = pending u) ->
  benchmark env M K N R func w = Ok r w' ->
  generators w' = S (S (generators w)) /\
  calls w' = repeat (random_matrix env (generators w) M K,
                     random_matrix env (S (generators w)) K N) (N.to_nat R)
             ++ calls w /\
  pending w' = pending w.
Proof.
  intros Hframe. unfold benchmark, bind at 1.
  destruct (benchmark_times env M K N R func w) as [times w1| |] eqn:E;
    try discriminate.
  destruct (min_element times); [|discriminate].
  intros [= _ <-]. clear r.
  revert E. unfold benchmark_times, bind, make_random_matrix, now. simpl_world.
  set (A := random_matrix env (generators w) M K).
  set (B := random_matrix env (S (generators w)) K N).
  intros E.
  set (P := fun (j : size_t) (u : world) =>
              generators u = S (S (generators w)) /\
              calls u = repeat (A, B) (N.to_nat j) ++ calls w /\
              pending u = pending w).
  assert (Hstep : forall j t u t' u',
             P j u -> timed_call env A B M K N func j t u = Ok t' u' ->
             P (N.succ j) u').
  { intros j t u t' u' (Hg & Hc & Hp).
    unfold timed_call, bind, now, record_call. simpl_world.
    destruct (func A B M K N _) as [C u1| |] eqn:EC; try discriminate.
    intros [= _ <-]. unfold P. simpl_world.
    destruct (Hframe _ _ _ _ _ EC) as (Hg1 & Hc1 & Hp1).
    cbn [generators calls pending] in Hg1, Hc1, Hp1.
    rewrite Hg1, Hc1, Hp1, Hg, Hc, Hp, N2Nat.inj_succ. repeat split. }
  match type of E with
  | for_prog _ _ _ _ ?w0 = _ =>
      destruct (for_prog_returned P _ Hstep (N.to_nat R) 0%N [] w0 times w1)
        as (Hg & Hc & Hp); [repeat split | exact E |]
  end.
  replace (N.to_nat (0 + N.of_nat (N.to_nat R))) with (N.to_nat R) in Hc by lia.
  repeat split; assumption.
Qed.

End OperandFacts.

(** ** Facts about [bench_all] *)

Section BenchAllFacts.

Context {T H16 : Type} `{Scalar T}.
Variable env : Environment T H16.

Local Abbreviation world := (World T H16).

Variables M K N R : size_t.
Hypothesis HR : (1 <= R)%N.
Hypothesis Hfits : shape_fits M K N.
Hypothesis Hok : collaborators_ok env M K N.

Lemma benchmark_naive (w : world) :
  exists r w',
    benchmark env M K N 3 naive_backend w = Ok r w' /\
    trace w' = repeat EvNaive 3 ++ trace w /\
    first w' = first w /\ stdout w' = stdout w.
Proof.
  destruct Hfits as (HMK & HKN & HMN).
  destruct (benchmark_runs env
              (fun k t f o => t = repeat EvNaive k ++ trace w /\ f = first w /\ o = stdout w)
              M K N 3 naive_backend w) as (times & m & w' & _ & E & _ & _ & (Ht & Hf & Ho) & _).
  - lia.
  - repeat split; reflexivity.
  - intros k u _ (Ht & Hf & Ho).
    destruct (naive_backend_returns
                (random_matrix env (generators w) M K)
                (random_matrix env (S (generators w)) K N) M K N u)
      as (C & u' & E & Ht' & Hf' & Hc' & Ho');
      try (apply random_matrix_length; assumption); [exact Hfits|].
    exists C, u'. repeat split; try assumption; try congruence.
    rewrite Ht', Ht. reflexivity.
  - eexists; exists w'. repeat split; eassumption.
Qed.

Lemma benchmark_cblas (w : world) :
  exists r w',
    benchmark env M K N R (cblas_backend env) w = Ok r w' /\
    trace w' = repeat EvSgemm (N.to_nat R) ++ trace w /\
    first w' = first w /\ stdout w' = stdout w.
Proof.
  destruct Hfits as (HMK & HKN & HMN).
  destruct (benchmark_runs env
              (fun k t f o => t = repeat EvSgemm k ++ trace w /\ f = first w /\ o = stdout w)
              M K N R (cblas_backend env) w)
    as (times & m & w' & _ & E & _ & _ & (Ht & Hf & Ho) & _).
  - exact HR.
  - repeat split; reflexivity.
  - intros k u _ (Ht & Hf & Ho).
    destruct (cblas_backend_returns env
                (random_matrix env (generators w) M K)
                (random_matrix env (S (generators w)) K N) M K N u)
      as (C & u' & E & Ht' & Hf' & Hc' & Ho');
      try (apply random_matrix_length; assumption); [exact Hok|].
    exists C, u'. repeat split; try assumption; try congruence.
    rewrite Ht', Ht. reflexivity.
  - eexists; exists w'. repeat split; eassumption.
Qed.

Lemma benchmark_rknn (c : RKNNMatMulCtx) (w : world) :
  (mem_size (mm_A c) / 2 <= M * K)%N ->
  (mem_size (mm_B c) / 2 <= K * N)%N ->
  (4 * (M * N) <= mem_size (mm_C c))%N ->
  exists r w',
    benchmark env M K N R (rknn_call env c) w = Ok r w' /\
    trace w' = repeat (EvMatmulRun (ctx c)) (N.to_nat R)
               ++ (if first w
                   then upload_events env c (random_matrix env (generators w) M K)
                                      (random_matrix env (S (generators w)) K N)
                   else [])
               ++ trace w /\
    first w' = false /\ stdout w' = stdout w.
Proof.
  intros HsA HsB HsC. destruct Hfits as (HMK & HKN & HMN).
  set (A := random_matrix env (generators w) M K).
  set (B := random_matrix env (S (generators w)) K N).
  set (upload := if first w then upload_events env c A B else []).
  destruct (benchmark_runs env
              (fun k t f o =>
                 match k with
                 | O => t = trace w /\ f = first w
                 | S _ => t = repeat (EvMatmulRun (ctx c)) k ++ upload ++ trace w /\
                          f = false
                 end /\ o = stdout w)
              M K N R (rknn_call env c) w)
    as (times & m & w' & _ & E & _ & _ & (HQ & Ho) & _).
  - exact HR.
  - repeat split; reflexivity.
  - intros k u _ (HQ & Ho). fold A B.
    destruct (rknn_call_returns env c A B M K N u)
      as (C & u' & E & Ht' & Hf' & Hc' & Ho').
    + unfold A. rewrite random_matrix_length by assumption. exact HsA.
    + unfold B. rewrite random_matrix_length by assumption. exact HsB.
    + unfold SizeT.mul. rewrite wrap_small by assumption. exact HsC.
    + exists C, u'. repeat split; try assumption; try congruence.
      rewrite Ht'. destruct k as [|k]; destruct HQ as [-> ->]; reflexivity.
  - destruct (N.to_nat R) as [|n] eqn:En; [lia|].
    destruct HQ as [Ht Hf].
    eexists; exists w'. repeat split; eassumption.
Qed.

(** What one call of [bench_all] does, by the status the plan negotiation
    returns after the two software backends have run. *)
Lemma bench_all_outcome (w : world) :
  let h := repeat EvSgemm (N.to_nat R) ++ repeat EvNaive 3 ++ trace w in
  let status := create_status env h (to_int M) (to_int K) (to_int N) in
  ((status < 0)%Z ->
   exists w',
     bench_all env M K N R w = Aborted w' /\
     trace w' = EvMatmulCreate (to_int M) (to_int K) (to_int N) status :: h /\
     (stdout_interactive env = true ->
      stdout w' = OutCreateFail status :: pending w ++ stdout w /\
      pending w' = []) /\
     (stdout_interactive env = false ->
      stdout w' = stdout w /\ pending w' = OutCreateFail status :: pending w)) /\
  ((0 <= status)%Z ->
   exists r0 r1 r2 c A B w',
     bench_all env M K N R w = Ok [r0; r1; r2] w' /\
     trace w' = repeat (EvMatmulRun (ctx c)) (N.to_nat R)
                ++ (if first w then upload_events env c A B else [])
                ++ setup_events c status ++ h /\
     first w' = false /\ stdout w' = stdout w /\
     N.of_nat (length A) = (M * K)%N /\ N.of_nat (length B) = (K * N)%N /\
     pending w' = pending w).
Proof.
  intros h status.
  destruct (benchmark_naive w) as (r0 & w1 & E1 & Ht1 & Hf1 & Ho1).
  destruct (benchmark_cblas w1) as (r1 & w2 & E2 & Ht2 & Hf2 & Ho2).
  assert (Hh : trace w2 = h) by (rewrite Ht2, Ht1; reflexivity).
  assert (Hp2 : pending w2 = pending w).
  { destruct (benchmark_frame env M K N 3 naive_backend w w1 r0) as (_ & _ & Hp1);
      [intros A B u C u'; apply naive_backend_frame | exact E1 |].
    destruct (benchmark_frame env M K N R (cblas_backend env) w1 w2 r1)
      as (_ & _ & Hp2);
      [intros A B u C u'; apply cblas_backend_frame | exact E2 |].
    congruence. }
  unfold bench_all, bind. rewrite E1. cbv beta iota. rewrite E2. cbv beta iota.
  unfold rknn_setup.
  split; intros Hst.
  - destruct (make_matmul_aborts env (to_int M) (to_int K) (to_int N) w2)
      as (w' & E & Ht & Hi & Hn); [rewrite Hh; exact Hst|].
    exists w'. rewrite E. split; [reflexivity|].
    rewrite Hh, Hp2, Ho2, Ho1 in *. split; [exact Ht|]. split; assumption.
  - destruct (make_matmul_returns env (to_int M) (to_int K) (to_int N) w2)
      as (c & w3 & E3 & Ht3 & Hf3 & Ho3 & _ & Hg3 & Hsz); [rewrite Hh; exact Hst|].
    destruct Hok as [_ Hsizes]. destruct (Hsizes (trace w2)) as (HsA & HsB & HsC).
    destruct (benchmark_rknn c w3) as (r2 & w4 & E4 & Ht4 & Hf4 & Ho4).
    + rewrite (Hsz SlotA). exact HsA.
    + rewrite (Hsz SlotB). exact HsB.
    + rewrite (Hsz SlotC). exact HsC.
    + exists r0, r1, r2, c, (random_matrix env (generators w3) M K),
        (random_matrix env (S (generators w3)) K N), w4.
      rewrite E3. cbv beta iota. rewrite E4. cbv beta iota.
      destruct (make_matmul_frame env _ _ _ _ _ _ E3) as (_ & _ & Hp3).
      destruct (benchmark_frame env M K N R (rknn_call env c) w3 w4 r2)
        as (_ & _ & Hp4);
        [intros A B u C u'; apply rknn_call_frame | exact E4 |].
      destruct Hfits as (HMK & HKN & HMN).
      rewrite Ht4, Ht3, Hf3, Hf2, Hf1, Ho4, Ho3, Ho2, Ho1, Hh, Hp4, Hp3, Hp2.
      repeat split; try assumption; now apply random_matrix_length.
Qed.

End BenchAllFacts.

(** ** Facts about traces *)

Section TraceFacts.

Context {H16 : Type}.

Lemma count_events_app (p : Event H16 -> bool) (a b : list (Event H16)) :
  count_events p (a ++ b) = count_events p a + count_events p b.
Proof.
  unfold count_events. now rewrite filter_app, length_app.
Qed.

Lemma count_events_repeat (p : Event H16 -> bool) (e : Event H16) (n : nat) :
  count_events p (repeat e n) = if p e then n else 0.
Proof.
  unfold count_events. induction n as [|n IH]; simpl.
  - now destruct (p e).
  - destruct (p e); simpl; [now rewrite IH | exact IH].
Qed.

End TraceFacts.

Lemma ExactScalar_Z : ExactScalar Z.
Proof.
  constructor; intros x; unfold fadd, fmul, fone, fzero, Scalar_Z; lia.
Qed.

Lemma sizes_bound (s : size_t) : In s sizes -> (1 <= s <= 2048)%N.
Proof.
  unfold sizes; simpl; intros [<- | [<- | [<- | [<- | []]]]]; lia.
Qed.

Lemma shape_fits_square (s : size_t) : (s <= 2048)%N -> shape_fits s s s.
Proof.
  intros Hs. unfold shape_fits, SizeT.modulus. repeat split; nia.
Qed.

(** [exact_env] keeps every collaborator inside its contract on the square
    shapes the driver uses. *)
Lemma exact_env_collaborators (s : size_t) :
  (1 <= s <= 2048)%N -> collaborators_ok exact_env s s s.
Proof.
  intros Hs. split.
  - intros A B HA HB.
    destruct (matmul_cblas_filled ExactScalar_Z A B s s) as [C [E _]]; try lia.
    exists C. exact E.
  - intros h. cbn [io_attr_size exact_env].
    rewrite to_int_small by lia.
    replace (Z.to_N (2 * (Z.of_N s * Z.of_N s))) with (2 * (s * s))%N by lia.
    replace (Z.to_N (4 * (Z.of_N s * Z.of_N s))) with (4 * (s * s))%N by lia.
    replace (2 * (s * s) / 2)%N with (s * s)%N
      by (symmetry; rewrite N.mul_comm; apply N.div_mul; lia).
    lia.
Qed.

Lemma piped_env_collaborators (s : size_t) :
  (1 <= s <= 2048)%N -> collaborators_ok piped_env s s s.
Proof.
  intros Hs. exact (exact_env_collaborators s Hs).
Qed.

(** * The statements of the specification *)

(** ** The naive backend *)




(** C10, as amended: when the product [M * N] fits a [size_t] and [A] and [B]
    hold at least [M * K] and [K * N] elements, every access of
    [matmul_naive] is inside its vector: the checked embedding returns. *)
Theorem matmul_naive_in_bounds {T : Type} `{Scalar T} (A B : list T) (M K N : size_t) :
  is_vector A -> is_vector B ->
  (M * K <= N.of_nat (length A))%N -> (K * N <= N.of_nat (length B))%N ->
  (M * N < SizeT.modulus)%N ->
  exists C, matmul_naive A B M K N = Some C.
Proof.
  intros HA HB HlA HlB HMN.
  destruct (matmul_naive_correct A B M K N HA HB HlA HlB HMN) as (C & E & _).
  now exists C.
Qed.

Lemma matmul_naive_in_bounds_witness :
  exists C, matmul_naive [1; 2; 3; 4; 9]%Z [5; 6; 7; 8; 9; 9]%Z 2 2 2 = Some C.
Proof.
  apply (matmul_naive_in_bounds [1; 2; 3; 4; 9]%Z [5; 6; 7; 8; 9; 9]%Z 2 2 2);
    (reflexivity || (cbv; discriminate)).
Defined.

(** C10 as stated fails: with [M = N = 2^32] and [K = 0] both inputs may be
    empty, the output vector is empty because [M * N] wraps to [0], and the
    store to [C[0]] is outside it. *)
Lemma matmul_naive_store_out_of_bounds :
  (wrap_dim * 0 <= N.of_nat (length (@nil Z)))%N /\
  (0 * wrap_dim <= N.of_nat (length (@nil Z)))%N /\
  matmul_naive (@nil Z) [] wrap_dim 0 wrap_dim = None.
Proof.
  split; [discriminate|]. split; [discriminate|]. reflexivity.
Qed.

(** ** The library backend *)

(** C2, as amended: for a square right operand ([K = N], the shapes the
    driver uses) and dimensions an [int] can hold, under exact arithmetic
    [matmul_cblas] returns the [M x N] matrix whose element [i * N + j] is the
    sum over [k] of [A[i * K + k] * B[j * N + k]]: the product of [A] with the
    transpose of [B], which is what [matmul_naive] returns for [A] and the
    transposed [B], and not the product [A * B]. *)
Theorem matmul_cblas_transposed {T : Type} `{Scalar T} (A B : list T) (M N : size_t) :
  ExactScalar T ->
  (1 <= M < 2147483648)%N -> (1 <= N < 2147483648)%N ->
  N.of_nat (length A) = (M * N)%N -> N.of_nat (length B) = (N * N)%N ->
  exists C,
    matmul_cblas sgemm_model A B M N N = Some C /\
    N.of_nat (length C) = (M * N)%N /\
    (forall i j, (i < M)%N -> (j < N)%N ->
                 vec_get C (i * N + j) = Some (dot_transposed A B N N i j)) /\
    matmul_naive A (transpose N N B) M N N = Some C.
Proof.
  intros Hexact HM HN HA HB.
  destruct (matmul_cblas_filled Hexact A B M N) as (C & E & HL & HC); try lia.
  exists C. split; [exact E|]. split; [exact HL|]. split.
  - intros i j Hi Hj. rewrite HC by nia. f_equal. f_equal.
    + symmetry. apply N.div_unique with (r := j); lia.
    + symmetry. apply N.mod_unique with (q := i); lia.
  - pose proof (transpose_length N N B) as HBt.
    destruct (matmul_naive_filled A (transpose N N B) M N N)
      as (C' & E' & HL' & HC');
      try (unfold is_vector, SizeT.modulus; nia).
    rewrite E'. f_equal. apply nth_error_ext. intros n.
    destruct (Nat.lt_ge_cases n (length C)) as [Hn | Hn].
    + specialize (HC (N.of_nat n)). specialize (HC' (N.of_nat n)).
      unfold vec_get in HC, HC'. rewrite Nat2N.id in HC, HC'.
      rewrite HC, HC' by lia. f_equal. apply dot_transpose.
      apply N.mod_lt. lia.
    + rewrite (proj2 (nth_error_None C n)) by exact Hn.
      apply nth_error_None. lia.
Qed.

Lemma matmul_cblas_transposed_witness :
  exists C,
    matmul_cblas sgemm_model [1; 2; 3; 4]%Z [5; 6; 7; 8]%Z 2 2 2 = Some C /\
    N.of_nat (length C) = (2 * 2)%N /\
    (forall i j, (i < 2)%N -> (j < 2)%N ->
                 vec_get C (i * 2 + j)
                 = Some (dot_transposed [1; 2; 3; 4]%Z [5; 6; 7; 8]%Z 2 2 i j)) /\
    matmul_naive [1; 2; 3; 4]%Z (transpose 2 2 [5; 6; 7; 8]%Z) 2 2 2 = Some C.
Proof.
  apply (matmul_cblas_transposed [1; 2; 3; 4]%Z [5; 6; 7; 8]%Z 2 2);
    [exact ExactScalar_Z | lia | lia | reflexivity | reflexivity].
Defined.

(** C2 as stated fails: on the identity and a non-symmetric [B], over exact
    integers, the naive backend returns [B] and the library backend returns
    its transpose. *)
Lemma matmul_cblas_differs_from_naive :
  matmul_naive [1; 0; 0; 1]%Z [1; 2; 3; 4]%Z 2 2 2 = Some [1; 2; 3; 4]%Z /\
  matmul_cblas sgemm_model [1; 0; 0; 1]%Z [1; 2; 3; 4]%Z 2 2 2 = Some [1; 3; 2; 4]%Z /\
  matmul_cblas sgemm_model [1; 0; 0; 1]%Z [1; 2; 3; 4]%Z 2 2 2
  <> matmul_naive [1; 0; 0; 1]%Z [1; 2; 3; 4]%Z 2 2 2.
Proof.
  split; [reflexivity|]. split; [reflexivity|]. discriminate.
Qed.

(** ** Statistics *)

(** C6: on a non-empty sample sequence [calculateAverage] is the arithmetic
    mean, the sum of the samples divided by their count, and
    [calculateStdDev] is the population standard deviation, the square root
    of the sum of squared deviations from that mean divided by the count. *)
Theorem statistics_match_definitions (S : list R) :
  S <> [] ->
  calculateAverage S = arithmetic_mean S /\
  calculateStdDev S = population_stddev S.
Proof.
  intros _. split.
  - apply calculateAverage_mean.
  - apply calculateStdDev_population.
Qed.

Lemma statistics_match_definitions_witness :
  calculateAverage [1; 3]%R = arithmetic_mean [1; 3]%R /\
  calculateStdDev [1; 3]%R = population_stddev [1; 3]%R.
Proof.
  apply (statistics_match_definitions [1; 3]%R). discriminate.
Defined.

(** C7: on a non-empty sample sequence the minimum is at most the mean, the
    standard deviation is not negative, and it is zero exactly when all
    samples are equal. *)
Theorem statistics_order (S : list R) :
  S <> [] ->
  (exists m, min_element S = Some m /\ (m <= calculateAverage S)%R) /\
  (0 <= calculateStdDev S)%R /\
  (calculateStdDev S = 0%R <-> all_equal S).
Proof.
  intros Hne. split; [|split].
  - destruct S as [|x S']; [congruence|].
    exists (min_element_from x S'). split; [reflexivity|].
    rewrite calculateAverage_mean. now apply min_le_mean.
  - unfold calculateStdDev. apply sqrt_pos.
  - rewrite calculateStdDev_population. now apply population_stddev_zero.
Qed.

Lemma statistics_order_witness :
  (exists m, min_element [2; 1; 3]%R = Some m /\ (m <= calculateAverage [2; 1; 3])%R) /\
  (0 <= calculateStdDev [2; 1; 3])%R /\
  (calculateStdDev [2; 1; 3]%R = 0%R <-> all_equal [2; 1; 3]%R).
Proof.
  apply (statistics_order [2; 1; 3]%R). discriminate.
Defined.

(** ** The benchmark runner *)

Section RunnerFacts.

Context {T H16 : Type} `{Scalar T}.
Variable env : Environment T H16.
Variables (M K N R : size_t) (func : @backend T H16) (w : World T H16).
Variable p : Event H16 -> bool.

(** Called on the pair that [benchmark] draws, the backend returns; an
    invocation logs exactly one event that [p] marks, reads no clock and
    constructs no generator. *)
Hypothesis Hfunc :
  forall u, exists C u',
    func (random_matrix env (generators w) M K)
         (random_matrix env (S (generators w)) K N) M K N u = Ok C u' /\
    count_events p (trace u') = S (count_events p (trace u)) /\
    clock_reads u' = clock_reads u /\
    generators u' = generators u /\
    calls u' = calls u.


End RunnerFacts.



(** ** One size: [bench_all] *)

Section UploadCounts.

Context {T H16 : Type} `{Scalar T}.
Variable env : Environment T H16.

Lemma count_upload_events (p : Event H16 -> bool) (c : RKNNMatMulCtx)
  (A B : list T) (f : bool) :
  p = is_naive \/ p = is_sgemm \/ p = is_run \/ p = is_create \/
  p = is_create_mem \/ p = is_destroy \/ p = create_failed ->
  count_events p (if f then upload_events env c A B else []) = 0.
Proof.
  intros Hp. destruct f; [|reflexivity].
  destruct Hp as [-> | [-> | [-> | [-> | [-> | [-> | ->]]]]]]; reflexivity.
Qed.

End UploadCounts.

(** C9: [bench_all] runs the naive backend 3 times whatever the requested
    repeat count [R >= 1] is, and the library and the hardware backend [R]
    times each. *)
Theorem bench_all_repeat_counts {T H16 : Type} `{Scalar T} (env : Environment T H16)
  (M K N R : size_t) (w : World T H16) :
  (1 <= R)%N ->
  shape_fits M K N ->
  collaborators_ok env M K N ->
  (forall h, 0 <= create_status env h (to_int M) (to_int K) (to_int N))%Z ->
  exists res w' evs,
    bench_all env M K N R w = Ok res w' /\
    trace w' = evs ++ trace w /\
    count_events is_naive evs = 3 /\
    count_events is_sgemm evs = N.to_nat R /\
    count_events is_run evs = N.to_nat R.
Proof.
  intros HR Hfits Hok Hst.
  destruct (bench_all_outcome env M K N R HR Hfits Hok w) as [_ Hret].
  destruct (Hret (Hst _)) as (r0 & r1 & r2 & c & A & B & w' & E & Ht & _).
  eexists; exists w'; eexists. split; [exact E|]. split.
  - rewrite Ht. rewrite !app_assoc. reflexivity.
  - rewrite !count_events_app, !count_events_repeat.
    rewrite !(count_upload_events env) by tauto.
    cbn. repeat split; lia.
Qed.

Lemma bench_all_repeat_counts_witness :
  exists res w' evs,
    bench_all exact_env 2 2 2 5 (@initial_world Z Z) = Ok res w' /\
    trace w' = evs ++ trace (@initial_world Z Z) /\
    count_events is_naive evs = 3 /\
    count_events is_sgemm evs = N.to_nat 5 /\
    count_events is_run evs = N.to_nat 5.
Proof.
  apply (bench_all_repeat_counts exact_env 2 2 2 5 (@initial_world Z Z)).
  - lia.
  - apply shape_fits_square. lia.
  - apply exact_env_collaborators. lia.
  - intros h. cbn. lia.
Defined.

(** C1 fails on the code.  The flag [first] is one variable for the whole
    program.  The backend of the first size converts and copies its two
    inputs once, on its first call; that call clears the flag, and the backend
    of a later size runs the plan [R] times and never converts or copies its
    inputs. *)
Theorem later_size_never_uploads {T H16 : Type} `{Scalar T} (env : Environment T H16)
  (M1 K1 N1 R1 M2 K2 N2 R2 : size_t) (w : World T H16) :
  first w = true ->
  (1 <= R1)%N -> shape_fits M1 K1 N1 -> collaborators_ok env M1 K1 N1 ->
  (forall h, 0 <= create_status env h (to_int M1) (to_int K1) (to_int N1))%Z ->
  (1 <= R2)%N -> shape_fits M2 K2 N2 -> collaborators_ok env M2 K2 N2 ->
  (forall h, 0 <= create_status env h (to_int M2) (to_int K2) (to_int N2))%Z ->
  exists res1 w1 evs1 res2 w2 evs2,
    bench_all env M1 K1 N1 R1 w = Ok res1 w1 /\
    trace w1 = evs1 ++ trace w /\
    count_events is_run evs1 = N.to_nat R1 /\
    count_events is_store evs1 = 2 /\
    bench_all env M2 K2 N2 R2 w1 = Ok res2 w2 /\
    trace w2 = evs2 ++ trace w1 /\
    count_events is_create evs2 = 1 /\
    count_events is_run evs2 = N.to_nat R2 /\
    count_events is_store evs2 = 0.
Proof.
  intros Hfirst HR1 Hfits1 Hok1 Hst1 HR2 Hfits2 Hok2 Hst2.
  destruct (bench_all_outcome env M1 K1 N1 R1 HR1 Hfits1 Hok1 w) as [_ Hret1].
  destruct (Hret1 (Hst1 _))
    as (a0 & a1 & a2 & c1 & A1 & B1 & w1 & E1 & Ht1 & Hf1 & _).
  destruct (bench_all_outcome env M2 K2 N2 R2 HR2 Hfits2 Hok2 w1) as [_ Hret2].
  destruct (Hret2 (Hst2 _)) as (b0 & b1 & b2 & c2 & A2 & B2 & w2 & E2 & Ht2 & _).
  rewrite Hfirst in Ht1. rewrite Hf1 in Ht2.
  eexists; exists w1; eexists; eexists; exists w2; eexists.
  split; [exact E1|]. split; [rewrite Ht1, !app_assoc; reflexivity|].
  split; [|split].
  - rewrite !count_events_app, !count_events_repeat. cbn. lia.
  - rewrite !count_events_app, !count_events_repeat. cbn. lia.
  - split; [exact E2|]. split; [rewrite Ht2, !app_assoc; reflexivity|].
    rewrite !count_events_app, !count_events_repeat. cbn.
    split; [|split]; lia.
Qed.

Lemma later_size_never_uploads_witness :
  exists res1 w1 evs1 res2 w2 evs2,
    bench_all exact_env 256 256 256 20 (@initial_world Z Z) = Ok res1 w1 /\
    trace w1 = evs1 ++ trace (@initial_world Z Z) /\
    count_events is_run evs1 = N.to_nat 20 /\
    count_events is_store evs1 = 2 /\
    bench_all exact_env 512 512 512 20 w1 = Ok res2 w2 /\
    trace w2 = evs2 ++ trace w1 /\
    count_events is_create evs2 = 1 /\
    count_events is_run evs2 = N.to_nat 20 /\
    count_events is_store evs2 = 0.
Proof.
  apply (later_size_never_uploads exact_env 256 256 256 20 512 512 512 20
           (@initial_world Z Z)).
  - reflexivity.
  - lia.
  - apply shape_fits_square. lia.
  - apply exact_env_collaborators. lia.
  - intros h. cbn. lia.
  - lia.
  - apply shape_fits_square. lia.
  - apply exact_env_collaborators. lia.
  - intros h. cbn. lia.
Defined.

(** C3 fails on the code.  [bench_all] creates one computation handle and
    three device regions and returns without releasing any of them:
    [free_matmul] is never called. *)
Theorem context_never_destroyed {T H16 : Type} `{Scalar T} (env : Environment T H16)
  (M K N R : size_t) (w : World T H16) :
  (1 <= R)%N ->
  shape_fits M K N ->
  collaborators_ok env M K N ->
  (forall h, 0 <= create_status env h (to_int M) (to_int K) (to_int N))%Z ->
  exists res w' evs,
    bench_all env M K N R w = Ok res w' /\
    trace w' = evs ++ trace w /\
    count_events is_create evs = 1 /\
    count_events is_create_mem evs = 3 /\
    count_events is_destroy evs = 0.
Proof.
  intros HR Hfits Hok Hst.
  destruct (bench_all_outcome env M K N R HR Hfits Hok w) as [_ Hret].
  destruct (Hret (Hst _)) as (r0 & r1 & r2 & c & A & B & w' & E & Ht & _).
  eexists; exists w'; eexists. split; [exact E|]. split.
  - rewrite Ht. rewrite !app_assoc. reflexivity.
  - rewrite !count_events_app, !count_events_repeat.
    rewrite !(count_upload_events env) by tauto.
    cbn. repeat split; lia.
Qed.

Lemma context_never_destroyed_witness :
  exists res w' evs,
    bench_all exact_env 256 256 256 20 (@initial_world Z Z) = Ok res w' /\
    trace w' = evs ++ trace (@initial_world Z Z) /\
    count_events is_create evs = 1 /\
    count_events is_create_mem evs = 3 /\
    count_events is_destroy evs = 0.
Proof.
  apply (context_never_destroyed exact_env 256 256 256 20 (@initial_world Z Z)).
  - lia.
  - apply shape_fits_square. lia.
  - apply exact_env_collaborators. lia.
  - intros h. cbn. lia.
Defined.

(** ** The driver *)

Lemma for_each_outcome {W X : Type} (Inv Bad : W -> Prop) (body : X -> Prog W unit)
  (xs : list X) :
  (forall x w, In x xs -> Inv w ->
     (exists w', body x w = Ok tt w' /\ Inv w') \/
     (exists w', body x w = Aborted w' /\ Bad w')) ->
  forall w, Inv w ->
    (exists w', for_each xs body w = Ok tt w' /\ Inv w') \/
    (exists w', for_each xs body w = Aborted w' /\ Bad w').
Proof.
  induction xs as [|x xs IH]; intros Hbody w Hw.
  - left. exists w. split; [reflexivity | exact Hw].
  - cbn [for_each]. unfold bind.
    destruct (Hbody x w (or_introl eq_refl) Hw) as [(w1 & E & H1) | (w1 & E & H1)];
      rewrite E.
    + apply IH; [|exact H1]. intros y u Hy. apply Hbody. now right.
    + right. exists w1. split; [reflexivity | exact H1].
Qed.

Lemma count_failed_setup {H16 : Type} (c : RKNNMatMulCtx) (status : Z) :
  (0 <= status)%Z ->
  count_events create_failed (@setup_events H16 c status) = 0.
Proof.
  intros Hst. unfold count_events, setup_events. cbn [filter create_failed].
  destruct (Z.ltb_spec status 0); [lia | reflexivity].
Qed.

Section MainFacts.

Context {T H16 : Type} `{Scalar T}.
Variable env : Environment T H16.
Hypothesis Hok : forall s, In s sizes -> collaborators_ok env s s s.

Local Abbreviation stopped_at_failed_create := (stopped_at_failed_create env).

(** What holds between two sizes: no negotiation has failed, the stream
    holds nothing back and no report was delivered. *)
Local Abbreviation between_sizes :=
  (fun w : World T H16 =>
     no_failed_create w /\ pending w = [] /\ no_report (stdout w)).

Lemma main_row_outcome (s : size_t) (w : World T H16) :
  In s sizes -> between_sizes w ->
  (exists w',
     (r <- bench_all env s s s 20 ;;
      match r with
      | r0 :: r1 :: r2 :: _ => print (OutRow s r0 r1 r2)
      | _ => undefined
      end) w = Ok tt w' /\ between_sizes w') \/
  (exists w',
     (r <- bench_all env s s s 20 ;;
      match r with
      | r0 :: r1 :: r2 :: _ => print (OutRow s r0 r1 r2)
      | _ => undefined
      end) w = Aborted w' /\ stopped_at_failed_create w').
Proof.
  intros Hs (Hw & Hpend & Hrep). pose proof (sizes_bound s Hs) as Hb.
  destruct (bench_all_outcome env s s s 20) with (w := w) as [Habort Hret];
    [lia | apply shape_fits_square; lia | now apply Hok |].
  unfold bind.
  match type of Habort with
  | (?st < 0)%Z -> _ => destruct (Z_lt_le_dec st 0) as [Hneg | Hpos]
  end.
  - right. destruct (Habort Hneg) as (w' & E & Ht & Hi & Hn).
    exists w'. rewrite E. split; [reflexivity|].
    unfold stopped_at_failed_create. rewrite Ht.
    eexists; eexists; eexists; eexists.
    split; [reflexivity|]. split; [exact Hneg|]. split.
    + intros Htty. destruct (Hi Htty) as [Ho _]. eexists. exact Ho.
    + intros Htty. destruct (Hn Htty) as [Ho Hp].
      rewrite Ho, Hp, Hpend. split; [reflexivity | exact Hrep].
  - left.
    destruct (Hret Hpos)
      as (r0 & r1 & r2 & c & A & B & w' & E & Ht & _ & Ho & _ & _ & Hp).
    rewrite E. eexists. split; [reflexivity|].
    unfold no_failed_create in *. run_prog. rewrite Ht, Ho, Hp, Hpend.
    split; [|split; [reflexivity|]].
    + rewrite !count_events_app, !count_events_repeat.
      rewrite (count_upload_events env) by tauto.
      rewrite (count_failed_setup c _ Hpos), Hw. reflexivity.
    + intros st [Hin | Hin]; [discriminate | exact (Hrep st Hin)].
Qed.

Lemma main_outcome :
  (exists w', main env initial_world = Ok 0%Z w' /\ no_failed_create w') \/
  (exists w', main env initial_world = Aborted w' /\ stopped_at_failed_create w').
Proof.
  unfold main. run_prog. unfold bind at 1 3.
  match goal with
  | |- context [for_each sizes ?body ?w0] =>
      destruct (for_each_outcome between_sizes stopped_at_failed_create
                  body sizes) with (w := w0) as [(w' & E & Hw') | (w' & E & Hw')]
  end.
  - intros s w Hs Hw. now apply main_row_outcome.
  - split; [reflexivity|]. split; [reflexivity|]. simpl_world.
    intros st [Hin | [Hin | []]]; discriminate.
  - left. exists w'. rewrite E. split; [reflexivity | exact (proj1 Hw')].
  - right. exists w'. rewrite E. split; [reflexivity | exact Hw'].
Qed.

(** When the negotiation for the first size fails, the failed call is the
    last call made and no table row is printed; the report follows header
    and separator only on a line buffered stream, and is pending, so lost,
    on a fully buffered one. *)
Lemma main_first_failure :
  (create_status env (repeat EvSgemm (N.to_nat 20) ++ repeat EvNaive 3)
     256 256 256 < 0)%Z ->
  exists w',
    main env initial_world = Aborted w' /\
    trace w'
    = EvMatmulCreate 256 256 256
        (create_status env (repeat EvSgemm (N.to_nat 20) ++ repeat EvNaive 3)
           256 256 256)
      :: repeat EvSgemm (N.to_nat 20) ++ repeat EvNaive 3 /\
    (stdout_interactive env = true ->
     stdout w'
     = [ OutCreateFail
           (create_status env (repeat EvSgemm (N.to_nat 20) ++ repeat EvNaive 3)
              256 256 256);
         OutSeparator; OutHeader ] /\
     pending w' = []) /\
    (stdout_interactive env = false ->
     stdout w' = [ OutSeparator; OutHeader ] /\
     pending w'
     = [ OutCreateFail
           (create_status env (repeat EvSgemm (N.to_nat 20) ++ repeat EvNaive 3)
              256 256 256) ]).
Proof.
  intros Hneg.
  unfold main, initial_world. run_prog. unfold sizes. cbn [for_each]. unfold bind.
  match goal with
  | |- context [bench_all env 256 256 256 20 ?w0] =>
      destruct (bench_all_outcome env 256 256 256 20) with (w := w0)
        as [Habort _];
      [lia | apply shape_fits_square; lia | apply Hok; now left |]
  end.
  cbn [trace stdout pending app] in Habort.
  rewrite app_nil_r in Habort. change (to_int 256) with 256%Z in Habort.
  destruct (Habort Hneg) as (w' & E & Ht & Hi & Hn).
  exists w'. rewrite E.
  split; [reflexivity|]. split; [exact Ht|]. split; assumption.
Qed.

End MainFacts.

(** C8: when [rknn_matmul_create] returns a negative status, [make_matmul]
    calls [printf] with the status and then [abort()] at once, nothing else
    is called: there is no retry and no fallback.  The report is delivered
    only when standard output is line buffered; on a fully buffered stream
    (a pipe, a file) it is still pending when [abort()] ends the process, and
    is lost.  So does [main] when the negotiation for the first size fails,
    before any table row.  [main] either ends that way, at a failed
    negotiation, or completes all sizes and returns exit code [0], which it
    does whenever every negotiation succeeds. *)
Theorem setup_failure_aborts {T H16 : Type} `{Scalar T} (env : Environment T H16) :
  (forall s, In s sizes -> collaborators_ok env s s s) ->
  (forall M K N (w : World T H16),
      (create_status env (trace w) M K N < 0)%Z ->
      exists w',
        make_matmul env M K N w = Aborted w' /\
        trace w' = EvMatmulCreate M K N (create_status env (trace w) M K N)
                   :: trace w /\
        (stdout_interactive env = true ->
         stdout w' = OutCreateFail (create_status env (trace w) M K N)
                     :: pending w ++ stdout w /\
         pending w' = []) /\
        (stdout_interactive env = false ->
         stdout w' = stdout w /\
         pending w' = OutCreateFail (create_status env (trace w) M K N)
                      :: pending w)) /\
  ((create_status env (repeat EvSgemm (N.to_nat 20) ++ repeat EvNaive 3)
      256 256 256 < 0)%Z ->
   exists w',
     main env initial_world = Aborted w' /\
     trace w'
     = EvMatmulCreate 256 256 256
         (create_status env (repeat EvSgemm (N.to_nat 20) ++ repeat EvNaive 3)
            256 256 256)
       :: repeat EvSgemm (N.to_nat 20) ++ repeat EvNaive 3 /\
     (stdout_interactive env = true ->
      stdout w'
      = [ OutCreateFail
            (create_status env (repeat EvSgemm (N.to_nat 20) ++ repeat EvNaive 3)
               256 256 256);
          OutSeparator; OutHeader ] /\
      pending w' = []) /\
     (stdout_interactive env = false ->
      stdout w' = [ OutSeparator; OutHeader ] /\
      pending w'
      = [ OutCreateFail
            (create_status env (repeat EvSgemm (N.to_nat 20) ++ repeat EvNaive 3)
               256 256 256) ])) /\
  ((exists w', main env initial_world = Ok 0%Z w' /\
               count_events create_failed (trace w') = 0) \/
   (exists w' M K N rest,
       main env initial_world = Aborted w' /\
       trace w' = EvMatmulCreate M K N (create_status env rest M K N) :: rest /\
       (create_status env rest M K N < 0)%Z /\
       (stdout_interactive env = true ->
        exists out,
          stdout w' = OutCreateFail (create_status env rest M K N) :: out) /\
       (stdout_interactive env = false ->
        pending w' = [OutCreateFail (create_status env rest M K N)] /\
        forall status, ~ In (OutCreateFail status) (stdout w')))) /\
  ((forall h M K N, 0 <= create_status env h M K N)%Z ->
   exists w', main env initial_world = Ok 0%Z w').
Proof.
  intros Hok. split; [|split; [|split]].
  - intros M K N w. apply make_matmul_aborts.
  - now apply main_first_failure.
  - destruct (main_outcome env Hok) as [(w' & E & Hw') | (w' & E & Hw')].
    + left. exists w'. split; [exact E | exact Hw'].
    + right. destruct Hw' as (M & K & N & rest & Ht & Hst & Hi & Hn).
      exists w', M, K, N, rest.
      split; [exact E|]. split; [exact Ht|]. split; [exact Hst|].
      split; [exact Hi | exact Hn].
  - intros Hst.
    destruct (main_outcome env Hok) as [(w' & E & Hw') | (w' & E & Hw')].
    + exists w'. exact E.
    + destruct Hw' as (M & K & N & rest & _ & Hneg & _).
      specialize (Hst rest M K N). lia.
Qed.

(** With standard output redirected and an accelerator that refuses the
    first plan, the process aborts and what it delivered ends with header and
    separator: the report never leaves the buffer. *)
Lemma setup_failure_aborts_witness :
  exists w',
    main piped_env initial_world = Aborted w' /\
    trace w' = EvMatmulCreate 256 256 256 (-1)
               :: repeat EvSgemm (N.to_nat 20) ++ repeat EvNaive 3 /\
    stdout w' = [ OutSeparator; OutHeader ] /\
    pending w' = [ OutCreateFail (-1) ].
Proof.
  destruct (setup_failure_aborts piped_env) as (_ & Hfirst & _).
  - intros s Hs. apply piped_env_collaborators.
    pose proof (sizes_bound s Hs). lia.
  - destruct Hfirst as (w' & E & Ht & _ & Hn); [cbn [create_status piped_env]; lia|].
    destruct (Hn eq_refl) as [Ho Hp].
    exists w'. split; [exact E|]. split; [exact Ht|]. split; [exact Ho | exact Hp].
Defined.

(** * Further properties of the code *)

(** ** Loops that return ran every iteration *)

Lemma for_loop_returned {St : Type} (Inv : St -> Prop) (body : N -> St -> option St) :
  (forall j t t', Inv t -> body j t = Some t' -> Inv t') ->
  forall (n : nat) (i : N) (s s' : St),
    Inv s -> for_loop n i body s = Some s' ->
    forall j, (i <= j < i + N.of_nat n)%N ->
              exists t t', Inv t /\ body j t = Some t'.
Proof.
  intros Hinv. induction n as [|n IH]; intros i s s' Hs E j Hj; [lia|].
  cbn [for_loop] in E. destruct (body i s) as [t|] eqn:Ei; [|discriminate].
  destruct (N.eq_dec j i) as [-> | Hne].
  - exists s, t. split; assumption.
  - apply (IH (N.succ i) t s'); [now apply (Hinv i s) | exact E | lia].
Qed.

Lemma for_upto_returned {St : Type} (Inv : St -> Prop) (body : N -> St -> option St)
  (bound : N) (s s' : St) :
  (forall j t t', Inv t -> body j t = Some t' -> Inv t') ->
  Inv s -> for_upto bound body s = Some s' ->
  forall j, (j < bound)%N -> exists t t', Inv t /\ body j t = Some t'.
Proof.
  intros Hinv Hs E j Hj.
  apply (for_loop_returned Inv body Hinv (N.to_nat bound) 0%N s s' Hs E). lia.
Qed.


Lemma vec_get_some_bound {A : Type} (v : list A) (i : N) (x : A) :
  vec_get v i = Some x -> (i < N.of_nat (length v))%N.
Proof.
  unfold vec_get. intros E.
  assert (nth_error v (N.to_nat i) <> None) as Hn by congruence.
  apply nth_error_Some in Hn. lia.
Qed.


(** ** The naive backend: where it is defined *)

Section NaiveDomain.

Context {T : Type} `{Scalar T}.
Variables (A B : list T) (M K N : size_t).



End NaiveDomain.



(** ** The naive backend: special operands *)

Lemma vec_ext {A : Type} (u v : list A) (n : N) :
  N.of_nat (length u) = n -> N.of_nat (length v) = n ->
  (forall q, (q < n)%N -> vec_get u q = vec_get v q) ->
  u = v.
Proof.
  intros Hu Hv Hq. apply nth_error_ext. intros k.
  destruct (Nat.lt_ge_cases k (length u)) as [Hk | Hk].
  - specialize (Hq (N.of_nat k)). unfold vec_get in Hq.
    rewrite Nat2N.id in Hq. apply Hq. lia.
  - rewrite (proj2 (nth_error_None u k)) by exact Hk.
    symmetry. apply nth_error_None. lia.
Qed.

Section NaiveOperands.

Context {T : Type} `{Scalar T}.

Lemma identity_matrix_length (n : size_t) :
  N.of_nat (length (identity_matrix n)) = (n * n)%N.
Proof.
  unfold identity_matrix. rewrite length_map, range_length. lia.
Qed.

Lemma entry_identity (n i k : size_t) :
  (i < n)%N -> (k < n)%N ->
  entry (identity_matrix n) (i * n + k) = if (i =? k)%N then fone else fzero.
Proof.
  intros Hi Hk. unfold identity_matrix, entry.
  apply nth_error_nth.
  rewrite nth_error_map, nth_error_range by nia. cbn [option_map].
  replace ((i * n + k) / n)%N with i by (apply N.div_unique with (r := k); lia).
  replace ((i * n + k) mod n)%N with k by (apply N.mod_unique with (q := i); lia).
  reflexivity.
Qed.

Variable exact : ExactScalar T.
Hypothesis fadd_zero_l : forall x : T, fadd fzero x = x.

(** Row [i] of the identity picks row [i] of the right operand. *)
Lemma dot_identity (B : list T) (M N i j : size_t) :
  (i < M)%N ->
  dot (identity_matrix M) B M N i j = entry B (i * N + j).
Proof.
  intros Hi. unfold dot.
  assert (Hfold : forall k, (k <= M)%N ->
            fold_left
              (fun sum k0 => fadd sum (fmul (entry (identity_matrix M) (i * M + k0))
                                            (entry B (k0 * N + j))))
              (range k) fzero
            = if (i <? k)%N then entry B (i * N + j) else fzero).
  { induction k as [|k IH] using N.peano_ind; intros Hk.
    - destruct (N.ltb_spec i 0); [lia | reflexivity].
    - rewrite range_succ, fold_left_app, IH by lia. cbn [fold_left].
      rewrite entry_identity by lia.
      destruct (N.ltb_spec i k) as [Hlt | Hge].
      + destruct (N.eqb_spec i k) as [-> | _]; [lia|].
        rewrite (fmul_zero_l exact), (fadd_zero_r exact).
        destruct (N.ltb_spec i (N.succ k)); [reflexivity | lia].
      + destruct (N.eqb_spec i k) as [-> | Hne].
        * rewrite (fmul_one_l exact), fadd_zero_l.
          destruct (N.ltb_spec k (N.succ k)); [reflexivity | lia].
        * rewrite (fmul_zero_l exact), (fadd_zero_r exact).
          destruct (N.ltb_spec i (N.succ k)); [lia | reflexivity]. }
  rewrite Hfold by lia.
  destruct (N.ltb_spec i M); [reflexivity | lia].
Qed.

End NaiveOperands.

(** X2: Under exact arithmetic the identity is a left unit of
    [matmul_naive]: multiplying the [M x M] identity by an [M x N] matrix [B]
    returns [B] itself. *)
Theorem matmul_naive_identity {T : Type} `{Scalar T} (B : list T) (M N : size_t) :
  ExactScalar T -> (forall x : T, fadd fzero x = x) ->
  (M * M < SizeT.modulus)%N -> (M * N < SizeT.modulus)%N ->
  N.of_nat (length B) = (M * N)%N ->
  matmul_naive (identity_matrix M) B M M N = Some B.
Proof.
  intros Hexact Hzero HMM HMN HB.
  pose proof (identity_matrix_length (T := T) M) as HI.
  destruct (matmul_naive_correct (identity_matrix M) B M M N) as (C & E & HL & HC);
    try (unfold is_vector; lia).
  rewrite E. f_equal. apply (vec_ext C B (M * N)); [exact HL | exact HB |].
  intros q Hq.
  destruct (N.eq_dec N 0) as [-> | HN0]; [lia|].
  pose proof (N.div_mod q N HN0) as Hdm.
  pose proof (N.mod_lt q N HN0) as Hmod.
  set (i := (q / N)%N) in *. set (j := (q mod N)%N) in *.
  assert (Hi : (i < M)%N) by nia.
  replace q with (i * N + j)%N by lia.
  rewrite (HC i j Hi Hmod), (dot_identity Hexact Hzero B M N i j Hi).
  symmetry. apply vec_get_in_bounds. lia.
Qed.

Lemma matmul_naive_identity_witness :
  matmul_naive (identity_matrix 2) [5; 6; 7; 8; 9; 10]%Z 2 2 3
  = Some [5; 6; 7; 8; 9; 10]%Z.
Proof.
  apply (matmul_naive_identity [5; 6; 7; 8; 9; 10]%Z 2 3).
  - exact ExactScalar_Z.
  - intros x. reflexivity.
  - reflexivity.
  - reflexivity.
  - reflexivity.
Defined.



Lemma entry_firstn {T : Type} `{Scalar T} (v : list T) (n p : N) :
  (p < n)%N -> entry (firstn (N.to_nat n) v) p = entry v p.
Proof.
  intros Hp. unfold entry. rewrite nth_firstn.
  destruct (Nat.ltb_spec (N.to_nat p) (N.to_nat n)); [reflexivity | lia].
Qed.

(** X4: [matmul_naive] reads only the first [M * K] elements of [A] and the
    first [K * N] elements of [B]: whatever follows them in longer operands
    has no effect on the result. *)
Theorem matmul_naive_reads_prefix {T : Type} `{Scalar T} (A B : list T) (M K N : size_t) :
  is_vector A -> is_vector B ->
  (M * K <= N.of_nat (length A))%N -> (K * N <= N.of_nat (length B))%N ->
  (M * N < SizeT.modulus)%N ->
  matmul_naive A B M K N
  = matmul_naive (firstn (N.to_nat (M * K)) A) (firstn (N.to_nat (K * N)) B) M K N.
Proof.
  intros HA HB HlA HlB HMN.
  destruct (matmul_naive_correct A B M K N HA HB HlA HlB HMN) as (C & E & HL & HC).
  destruct (matmul_naive_correct
              (firstn (N.to_nat (M * K)) A) (firstn (N.to_nat (K * N)) B) M K N)
    as (C' & E' & HL' & HC');
    try (unfold is_vector in *; rewrite length_firstn; lia); [exact HMN|].
  rewrite E, E'. f_equal. apply (vec_ext C C' (M * N)); [exact HL | exact HL' |].
  intros q Hq.
  destruct (N.eq_dec N 0) as [-> | HN0]; [lia|].
  pose proof (N.div_mod q N HN0) as Hdm.
  pose proof (N.mod_lt q N HN0) as Hmod.
  set (i := (q / N)%N) in *. set (j := (q mod N)%N) in *.
  assert (Hi : (i < M)%N) by nia.
  replace q with (i * N + j)%N by lia.
  rewrite (HC i j Hi Hmod), (HC' i j Hi Hmod). f_equal.
  unfold dot. apply fold_left_ext_in. intros sum k Hk. apply in_range in Hk.
  rewrite !entry_firstn by nia. reflexivity.
Qed.

Lemma matmul_naive_reads_prefix_witness :
  matmul_naive [1; 2; 3; 4; 99]%Z [5; 6; 7; 8; 99; 99]%Z 2 2 2
  = matmul_naive (firstn (N.to_nat (2 * 2)) [1; 2; 3; 4; 99]%Z)
                 (firstn (N.to_nat (2 * 2)) [5; 6; 7; 8; 99; 99]%Z) 2 2 2.
Proof.
  apply (matmul_naive_reads_prefix [1; 2; 3; 4; 99]%Z [5; 6; 7; 8; 99; 99]%Z 2 2 2);
    (reflexivity || (cbv; discriminate)).
Defined.

Lemma vec_get_transpose {T : Type} `{Scalar T} (rows cols : size_t) (B : list T)
  (p : size_t) :
  (p < rows * cols)%N ->
  vec_get (transpose rows cols B) p
  = Some (entry B ((p mod rows) * cols + p / rows)).
Proof.
  intros Hp. unfold transpose, vec_get.
  rewrite nth_error_map, (nth_error_range _ _ Hp). reflexivity.
Qed.

(** X5: The transpose law, which needs no more of the arithmetic than a
    commutative multiplication, as that of floats is: the product of the
    transposes, in the other order, is the transpose of the product, element
    for element, because both add the same terms in the same order. *)
Theorem matmul_naive_transpose {T : Type} `{Scalar T} (A B : list T) (M K N : size_t) :
  (forall x y : T, fmul x y = fmul y x) ->
  N.of_nat (length A) = (M * K)%N -> N.of_nat (length B) = (K * N)%N ->
  (M * K < SizeT.modulus)%N -> (K * N < SizeT.modulus)%N ->
  (M * N < SizeT.modulus)%N ->
  exists C,
    matmul_naive A B M K N = Some C /\
    matmul_naive (transpose K N B) (transpose M K A) N K M
    = Some (transpose M N C).
Proof.
  intros Hcomm HlA HlB HMK HKN HMN.
  destruct (matmul_naive_correct A B M K N) as (C & E & HL & HC);
    try (unfold is_vector; lia).
  pose proof (transpose_length K N B) as HlBt.
  pose proof (transpose_length M K A) as HlAt.
  destruct (matmul_naive_correct (transpose K N B) (transpose M K A) N K M)
    as (Ct & Et & HLt & HCt); try (unfold is_vector; lia).
  exists C. split; [exact E|]. rewrite Et. f_equal.
  apply (vec_ext Ct (transpose M N C) (N * M)); [exact HLt | |].
  { rewrite transpose_length. lia. }
  intros q Hq.
  destruct (N.eq_dec M 0) as [-> | HM0]; [lia|].
  pose proof (N.div_mod q M HM0) as Hdm.
  pose proof (N.mod_lt q M HM0) as Hmod.
  rewrite vec_get_transpose by lia.
  set (j := (q / M)%N) in *. set (i := (q mod M)%N) in *.
  assert (Hj : (j < N)%N) by nia.
  replace q with (j * M + i)%N by lia.
  rewrite (HCt j i Hj Hmod). f_equal.
  assert (HCe : entry C (i * N + j) = dot A B K N i j).
  { unfold entry. apply nth_error_nth. apply (HC i j Hmod Hj). }
  rewrite HCe. unfold dot.
  apply fold_left_ext_in. intros sum k Hk. apply in_range in Hk.
  rewrite !entry_transpose by nia.
  replace ((j * K + k) mod K)%N with k by (apply N.mod_unique with (q := j); lia).
  replace ((j * K + k) / K)%N with j by (apply N.div_unique with (r := k); lia).
  replace ((k * M + i) mod M)%N with i by (apply N.mod_unique with (q := k); lia).
  replace ((k * M + i) / M)%N with k by (apply N.div_unique with (r := i); lia).
  rewrite Hcomm. reflexivity.
Qed.

Lemma matmul_naive_transpose_witness :
  exists C,
    matmul_naive [1; 2; 3; 4; 5; 6]%Z [7; 8; 9]%Z 2 3 1 = Some C /\
    matmul_naive (transpose 3 1 [7; 8; 9]%Z) (transpose 2 3 [1; 2; 3; 4; 5; 6]%Z) 1 3 2
    = Some (transpose 2 1 C).
Proof.
  apply (matmul_naive_transpose [1; 2; 3; 4; 5; 6]%Z [7; 8; 9]%Z 2 3 1);
    try reflexivity.
  intros x y. apply Z.mul_comm.
Defined.

(** ** Statistics: what the reductions depend on *)

Section StatisticsMore.

Local Open Scope R_scope.

Lemma Rsum_permutation (S S' : list R) : Permutation S S' -> Rsum S = Rsum S'.
Proof.
  induction 1; simpl; lra.
Qed.

Lemma Rsum_affine (a c : R) (S : list R) :
  Rsum (map (fun x => a * x + c) S) = a * Rsum S + INR (length S) * c.
Proof.
  induction S as [|x S IH].
  - simpl. lra.
  - change (length (x :: S)) with (Datatypes.S (length S)). rewrite S_INR.
    simpl. rewrite IH. lra.
Qed.

Lemma Rsum_scaled (a : R) (S : list R) : Rsum (map (fun x => a * x) S) = a * Rsum S.
Proof.
  induction S as [|x S IH]; simpl; [lra | rewrite IH; lra].
Qed.

Lemma min_element_complete (S : list R) (m : R) :
  In m S -> (forall x, In x S -> m <= x) -> min_element S = Some m.
Proof.
  intros Hin Hlow.
  destruct S as [|y l]; [contradiction|].
  remember (min_element (y :: l)) as r eqn:Er. symmetry in Er.
  destruct r as [m'|]; [|simpl in Er; discriminate].
  pose proof (min_element_in _ _ Er) as Hin'.
  pose proof (min_element_lower _ _ Er) as Hlow'.
  f_equal. apply Rle_antisym; [now apply Hlow' | now apply Hlow].
Qed.

End StatisticsMore.

(** X6: [std::min_element] as used by [benchmark]: on an empty range it
    yields the past-the-end iterator, and otherwise it yields [m] exactly when
    [m] is one of the samples and no sample is smaller. *)
Theorem min_element_characterised (S : list R) (m : R) :
  (min_element S = None <-> S = []) /\
  (min_element S = Some m <-> In m S /\ forall x, In x S -> (m <= x)%R).
Proof.
  split; [|split].
  - destruct S; simpl; split; congruence.
  - intros E. split; [now apply min_element_in | now apply min_element_lower].
  - intros [Hin Hlow]. now apply min_element_complete.
Qed.

(** X7: The three reductions do not depend on the order of the samples:
    a permutation of the sequence has the same minimum, mean and standard
    deviation. *)
Theorem statistics_permutation (S S' : list R) :
  Permutation S S' ->
  min_element S = min_element S' /\
  calculateAverage S = calculateAverage S' /\
  calculateStdDev S = calculateStdDev S'.
Proof.
  intros HP.
  assert (Hmean : arithmetic_mean S = arithmetic_mean S').
  { unfold arithmetic_mean.
    now rewrite (Rsum_permutation _ _ HP), (Permutation_length HP). }
  split; [|split].
  - destruct (min_element S) as [m|] eqn:E.
    + symmetry. apply min_element_complete.
      * apply (Permutation_in _ HP). now apply min_element_in.
      * intros x Hx. apply (min_element_lower _ _ E).
        now apply (Permutation_in _ (Permutation_sym HP)).
    + destruct S; [|simpl in E; discriminate].
      apply Permutation_nil in HP. now subst S'.
  - now rewrite !calculateAverage_mean.
  - rewrite !calculateStdDev_population. unfold population_stddev.
    rewrite Hmean, (Permutation_length HP).
    now rewrite (Rsum_permutation _ _ (Permutation_map _ HP)).
Qed.

Lemma statistics_permutation_witness :
  min_element [3; 1; 2]%R = min_element [1; 2; 3]%R /\
  calculateAverage [3; 1; 2]%R = calculateAverage [1; 2; 3]%R /\
  calculateStdDev [3; 1; 2]%R = calculateStdDev [1; 2; 3]%R.
Proof.
  apply (statistics_permutation [3; 1; 2]%R [1; 2; 3]%R).
  apply perm_trans with (l' := [1; 3; 2]%R).
  - apply perm_swap.
  - apply perm_skip. apply perm_swap.
Defined.

(** X8: Changing the unit or the origin of the samples changes the
    reductions accordingly: for [a >= 0], samples [a * x + c] have mean
    [a * mean + c] and standard deviation [a * stddev]. *)
Theorem statistics_affine (a c : R) (S : list R) :
  S <> [] -> (0 <= a)%R ->
  calculateAverage (map (fun x => a * x + c)%R S) = (a * calculateAverage S + c)%R /\
  calculateStdDev (map (fun x => a * x + c)%R S) = (a * calculateStdDev S)%R.
Proof.
  intros Hne Ha. pose proof (INR_length_pos S Hne) as Hn.
  assert (Hmean : arithmetic_mean (map (fun x => a * x + c)%R S)
                  = (a * arithmetic_mean S + c)%R).
  { unfold arithmetic_mean. rewrite Rsum_affine, length_map. field. lra. }
  split.
  - now rewrite !calculateAverage_mean.
  - rewrite !calculateStdDev_population. unfold population_stddev.
    rewrite Hmean, length_map, map_map.
    rewrite (map_ext
               (fun x => (a * x + c - (a * arithmetic_mean S + c))
                         * (a * x + c - (a * arithmetic_mean S + c)))%R
               (fun x => (a * a) * ((x - arithmetic_mean S) * (x - arithmetic_mean S)))%R)
      by (intros x; ring).
    rewrite <- (map_map (fun x => (x - arithmetic_mean S) * (x - arithmetic_mean S))%R
                        (fun y => (a * a) * y)%R).
    rewrite Rsum_scaled.
    replace (a * a * Rsum (map (fun x => (x - arithmetic_mean S) * (x - arithmetic_mean S)) S)
             / INR (length S))%R
      with ((a * a) * (Rsum (map (fun x => (x - arithmetic_mean S) * (x - arithmetic_mean S)) S)
                       / INR (length S)))%R by (field; lra).
    rewrite sqrt_mult.
    + now rewrite sqrt_square.
    + nra.
    + apply Rmult_le_pos; [apply Rsum_squares_nonneg|].
      left. now apply Rinv_0_lt_compat.
Qed.

Lemma statistics_affine_witness :
  calculateAverage (map (fun x => 1000 * x + 0) [1; 3])%R
  = (1000 * calculateAverage [1; 3] + 0)%R /\
  calculateStdDev (map (fun x => 1000 * x + 0) [1; 3])%R
  = (1000 * calculateStdDev [1; 3])%R.
Proof.
  apply (statistics_affine 1000 0 [1; 3]%R); [discriminate | lra].
Defined.

(** ** The harness: filling, uploading, releasing *)

Lemma update_app_here {A : Type} (l1 l2 : list A) (y x : A) :
  update (l1 ++ y :: l2) (length l1) x = l1 ++ x :: l2.
Proof.
  induction l1 as [|h l1 IH]; simpl; [reflexivity | now f_equal].
Qed.

Section HarnessMore.

Context {T H16 : Type} `{Scalar T}.
Variable env : Environment T H16.

Local Abbreviation world := (World T H16).

Lemma fill_random_loop (g : nat) (M N : size_t) :
  fill_random env g M N = Some (random_matrix env g M N).
Proof.
  unfold fill_random, random_matrix.
  set (L := SizeT.mul M N).
  set (draw := uniform_draw env g).
  destruct (for_upto_invariant
              (fun k A => A = map draw (seq 0 (N.to_nat k))
                              ++ repeat fzero (N.to_nat L - N.to_nat k))
              (fun i A => vec_set A i (draw (N.to_nat i))) L
              (repeat fzero (N.to_nat L))) as [A [E HA]].
  - simpl. now rewrite Nat.sub_0_r.
  - intros k A Hk ->.
    unfold vec_set. rewrite length_app, length_map, length_seq, repeat_length.
    destruct (N.ltb_spec k (N.of_nat (N.to_nat k + (N.to_nat L - N.to_nat k)))); [|lia].
    eexists; split; [reflexivity|].
    replace (N.to_nat L - N.to_nat k)
      with (S (N.to_nat L - N.to_nat (N.succ k))) by lia.
    cbn [repeat].
    pose proof (update_app_here (map draw (seq 0 (N.to_nat k)))
                  (repeat fzero (N.to_nat L - N.to_nat (N.succ k)))
                  fzero (draw (N.to_nat k))) as Hu.
    rewrite length_map, length_seq in Hu. rewrite Hu.
    rewrite N2Nat.inj_succ, seq_S, map_app, <- app_assoc. reflexivity.
  - rewrite E, HA, Nat.sub_diag, app_nil_r. reflexivity.
Qed.

Lemma convert_loop_short (size : size_t) (data : list T) :
  (N.of_nat (length data) < size)%N ->
  for_upto size (convert_step env data) [] = None.
Proof.
  intros Hlt.
  destruct (for_upto size (convert_step env data) []) as [ptr|] eqn:E; [|reflexivity].
  exfalso.
  destruct (for_upto_returned (fun _ => True) _ size _ _ (fun _ _ _ _ _ => I) I E
              (N.of_nat (length data)) Hlt) as (t & t' & _ & Et).
  unfold convert_step in Et.
  destruct (vec_get data (N.of_nat (length data))) as [x|] eqn:Eg; [|discriminate].
  apply vec_get_some_bound in Eg. lia.
Qed.

Lemma set_matrix_data_undefined (c : nat) (mem : rknn_tensor_mem) (attr : Slot)
  (data : list T) (u : world) :
  (N.of_nat (length data) < mem_size mem / 2)%N ->
  set_matrix_data env c mem attr data u = Undefined.
Proof.
  intros Hlt. unfold set_matrix_data, bind.
  rewrite (convert_loop_short _ _ Hlt). reflexivity.
Qed.

Lemma rknn_call_outcome (c : RKNNMatMulCtx) (A B : list T) (M K N : size_t)
  (u : world) :
  (regions_fit c A B M N u /\
   exists C u', rknn_call env c A B M K N u = Ok C u' /\
                length C = N.to_nat (SizeT.mul M N)) \/
  (~ regions_fit c A B M N u /\ rknn_call env c A B M K N u = Undefined).
Proof.
  unfold regions_fit, rknn_call, bind, get_first, set_first.
  destruct (first u) eqn:Hf.
  - destruct (N.le_gt_cases (mem_size (mm_A c) / 2) (N.of_nat (length A)))
      as [HsA | HsA].
    2:{ right. split; [intros [Hin _]; destruct (Hin eq_refl); lia|].
        rewrite (set_matrix_data_undefined _ _ _ _ _ HsA). reflexivity. }
    match goal with
    | |- context [set_matrix_data env _ _ SlotA A ?u1] =>
        destruct (set_matrix_data_returns env (ctx c) (mm_A c) SlotA A u1 HsA)
          as [u2 [E2 _]]; rewrite !E2
    end.
    destruct (N.le_gt_cases (mem_size (mm_B c) / 2) (N.of_nat (length B)))
      as [HsB | HsB].
    2:{ right. split; [intros [Hin _]; destruct (Hin eq_refl); lia|].
        rewrite (set_matrix_data_undefined _ _ _ _ _ HsB). reflexivity. }
    destruct (set_matrix_data_returns env (ctx c) (mm_B c) SlotB B u2 HsB)
      as [u3 [E3 _]]. rewrite !E3.
    unfold rknn_matmul_run, log, read_output. simpl_world.
    destruct (N.leb_spec (4 * SizeT.mul M N) (mem_size (mm_C c))) as [HsC | HsC].
    + left. split; [split; [intros _; split; assumption | assumption]|].
      eexists; eexists; split; [reflexivity|].
      now rewrite length_map, length_seq.
    + right. split; [intros [_ Hin]; lia | reflexivity].
  - unfold ret, rknn_matmul_run, log, read_output. simpl_world.
    destruct (N.leb_spec (4 * SizeT.mul M N) (mem_size (mm_C c))) as [HsC | HsC].
    + left. split; [split; [discriminate | assumption]|].
      eexists; eexists; split; [reflexivity|].
      now rewrite length_map, length_seq.
    + right. split; [intros [_ Hin]; lia | reflexivity].
Qed.

End HarnessMore.

(** X9: The fill loop of [make_random_matrix] never leaves its vector,
    whatever the dimensions, also when [M * N] wraps: size and loop bound are
    the same wrapped product.  The vector it returns has that many elements,
    element [i] being the [i]-th draw of a generator of its own. *)
Theorem make_random_matrix_fills {T H16 : Type} `{Scalar T} (env : Environment T H16)
  (M N : size_t) (w : World T H16) :
  exists A w',
    fill_random env (generators w) M N = Some A /\
    make_random_matrix env M N w = Ok A w' /\
    length A = N.to_nat (SizeT.mul M N) /\
    (forall i, (i < SizeT.mul M N)%N ->
               vec_get A i = Some (uniform_draw env (generators w) (N.to_nat i))) /\
    generators w' = S (generators w) /\ trace w' = trace w /\
    clock_reads w' = clock_reads w.
Proof.
  exists (random_matrix env (generators w) M N). eexists.
  split; [apply fill_random_loop|]. split; [reflexivity|].
  simpl_world. split; [|split; [|repeat split]].
  - unfold random_matrix. now rewrite length_map, length_seq.
  - intros i Hi. unfold vec_get, random_matrix.
    rewrite nth_error_map, nth_error_seq.
    destruct (Nat.ltb_spec (N.to_nat i) (N.to_nat (SizeT.mul M N))); [|lia].
    reflexivity.
Qed.

(** X10: [set_matrix_data] converts as many elements as the device region
    holds halves, not as many as the host vector has: it returns exactly when
    the vector has at least [mem->size / 2] elements, and reads past the end
    of the vector otherwise. *)
Theorem set_matrix_data_defined_iff {T H16 : Type} `{Scalar T} (env : Environment T H16)
  (c : nat) (mem : rknn_tensor_mem) (attr : Slot) (data : list T) (u : World T H16) :
  ((exists u', set_matrix_data env c mem attr data u = Ok tt u') <->
   (mem_size mem / 2 <= N.of_nat (length data))%N) /\
  (set_matrix_data env c mem attr data u = Undefined <->
   (N.of_nat (length data) < mem_size mem / 2)%N).
Proof.
  destruct (N.le_gt_cases (mem_size mem / 2) (N.of_nat (length data))) as [Hle | Hgt].
  - destruct (set_matrix_data_returns env c mem attr data u Hle) as [u' [E _]].
    split; split.
    + intros _. exact Hle.
    + intros _. exists u'. exact E.
    + intros E'. rewrite E in E'. discriminate.
    + intros Hlt. lia.
  - pose proof (set_matrix_data_undefined env c mem attr data u Hgt) as E.
    split; split.
    + intros [u' E']. rewrite E in E'. discriminate.
    + intros Hle. lia.
    + intros _. exact Hgt.
    + intros _. exact E.
Qed.

(** X11: A call of the closure returns exactly when the regions the driver
    negotiated fit: on the call that uploads, each input region holds no more
    halves than its operand has elements, and on every call the output region
    holds [M * N] floats.  Otherwise the call reads outside a buffer.  A call
    that returns yields [M * N] elements. *)
Theorem rknn_call_defined_iff {T H16 : Type} `{Scalar T} (env : Environment T H16)
  (c : RKNNMatMulCtx) (A B : list T) (M K N : size_t) (u : World T H16) :
  ((exists C u', rknn_call env c A B M K N u = Ok C u') <-> regions_fit c A B M N u) /\
  (rknn_call env c A B M K N u = Undefined <-> ~ regions_fit c A B M N u) /\
  (forall C u', rknn_call env c A B M K N u = Ok C u' ->
                length C = N.to_nat (SizeT.mul M N)).
Proof.
  destruct (rknn_call_outcome env c A B M K N u)
    as [(Hfit & C & u' & E & Hlen) | (Hnfit & E)].
  - split; [split|split; [split|]].
    + intros _. exact Hfit.
    + intros _. exists C, u'. exact E.
    + intros E'. rewrite E in E'. discriminate.
    + intros Hn. contradiction.
    + intros C' u'' E'. rewrite E in E'. injection E' as <- _. exact Hlen.
  - split; [split|split; [split|]].
    + intros (C & u' & E'). rewrite E in E'. discriminate.
    + intros Hfit. contradiction.
    + intros _. exact Hnfit.
    + intros _. exact E.
    + intros C u' E'. rewrite E in E'. discriminate.
Qed.

(** ** Releasing what the setup acquired *)

(** X12: [free_matmul] undoes [make_matmul]: run on the context a
    successful setup returned, it releases each of the three regions the
    setup allocated once and nothing else, and then, last, the computation
    handle the one negotiation returned. *)
Theorem free_matmul_releases {T H16 : Type} `{Scalar T} (env : Environment T H16)
  (M K N : Z) (w w1 : World T H16) (c : RKNNMatMulCtx) :
  make_matmul env M K N w = Ok c w1 ->
  exists evs w2,
    free_matmul c w1 = Ok tt w2 /\
    trace w2 = evs ++ trace w /\
    hd_error evs = Some (EvMatmulDestroy (ctx c)) /\
    count_events is_create evs = 1 /\
    count_events (destroys_context (ctx c)) evs = 1 /\
    count_events is_create_mem evs = 3 /\
    count_events is_destroy evs = 4 /\
    forall m, count_events (creates_region m) evs
              = count_events (destroys_region m) evs.
Proof.
  destruct w as [t o f cs rs g k cl pd].
  unfold make_matmul, bind at 1, rknn_matmul_create. simpl_world.
  destruct (Z.ltb_spec (create_status env t M K N) 0) as [Hneg | Hpos].
  - unfold bind, printf, abort. destruct (stdout_interactive env); discriminate.
  - run_prog. intros [= <- <-].
    unfold free_matmul, rknn_destroy_mem, rknn_matmul_destroy.
    cbn [ctx mm_A mm_B mm_C mem_id]. run_prog.
    exists [ EvMatmulDestroy cs;
             EvDestroyMem cs (S (S rs)); EvDestroyMem cs (S rs); EvDestroyMem cs rs;
             EvSetIoMem cs (S (S rs)) SlotC; EvSetIoMem cs (S rs) SlotB;
             EvSetIoMem cs rs SlotA;
             EvCreateMem cs (S (S rs)) (io_attr_size env t M K N SlotC);
             EvCreateMem cs (S rs) (io_attr_size env t M K N SlotB);
             EvCreateMem cs rs (io_attr_size env t M K N SlotA);
             EvMatmulCreate M K N (create_status env t M K N) ].
    eexists. split; [reflexivity|]. simpl_world.
    split; [reflexivity|]. split; [reflexivity|]. split; [reflexivity|].
    split; [unfold count_events; cbn [filter destroys_context];
            rewrite Nat.eqb_refl; reflexivity|].
    split; [reflexivity|]. split; [reflexivity|].
    intros m. unfold count_events. cbn [filter creates_region destroys_region].
    destruct (Nat.eqb m rs), (Nat.eqb m (S rs)), (Nat.eqb m (S (S rs)));
      reflexivity.
Qed.

Lemma free_matmul_releases_witness :
  exists c w1,
    make_matmul exact_env 2 2 2 initial_world = Ok c w1 /\
    exists evs w2,
      free_matmul c w1 = Ok tt w2 /\
      trace w2 = evs ++ trace (@initial_world Z Z) /\
      hd_error evs = Some (EvMatmulDestroy (ctx c)) /\
      count_events is_create evs = 1 /\
      count_events (destroys_context (ctx c)) evs = 1 /\
      count_events is_create_mem evs = 3 /\
      count_events is_destroy evs = 4 /\
      forall m, count_events (creates_region m) evs
                = count_events (destroys_region m) evs.
Proof.
  eexists. eexists. split; [cbv; reflexivity|].
  apply (free_matmul_releases exact_env 2 2 2 initial_world). reflexivity.
Defined.

(** ** Timing *)

Lemma elapsed_seconds_zero (start end_ : Z) :
  (Z.abs (end_ - start) < 1000000)%Z -> elapsed_seconds start end_ = 0%R.
Proof.
  intros Hd. unfold elapsed_seconds.
  rewrite (proj2 (Z.quot_small_iff (end_ - start) 1000000 ltac:(lia))) by lia.
  lra.
Qed.

(** X13: The resolution of a sample is one millisecond, truncated towards
    zero: a sample is [0] exactly when the two clock readings are less than
    a millisecond apart, in either direction; when the clock did not go back
    the sample is not negative, not above the time that passed and less
    than a millisecond below it. *)
Theorem elapsed_seconds_resolution (start end_ : Z) :
  (elapsed_seconds start end_ = 0%R <-> (Z.abs (end_ - start) < 1000000)%Z) /\
  ((start <= end_)%Z ->
   (0 <= elapsed_seconds start end_ <= IZR (end_ - start) / 1000000000)%R /\
   (IZR (end_ - start) / 1000000000 < elapsed_seconds start end_ + / 1000)%R).
Proof.
  split.
  - split; [|apply elapsed_seconds_zero].
    unfold elapsed_seconds. intros Hz.
    assert (Hq : IZR (Z.quot (end_ - start) 1000000) = 0%R) by lra.
    apply eq_IZR_R0 in Hq.
    apply (proj1 (Z.quot_small_iff (end_ - start) 1000000 ltac:(lia))) in Hq. lia.
  - intros Hle. unfold elapsed_seconds.
    rewrite Z.quot_div_nonneg by lia.
    set (d := (end_ - start)%Z).
    pose proof (Z.div_mod d 1000000 ltac:(lia)) as Hd.
    pose proof (Z.mod_pos_bound d 1000000 ltac:(lia)) as Hr.
    assert (Hq : (0 <= d / 1000000)%Z) by (apply Z.div_pos; lia).
    assert (HdR : IZR d = (1000000 * IZR (d / 1000000) + IZR (d mod 1000000))%R).
    { rewrite Hd at 1. rewrite plus_IZR, mult_IZR. reflexivity. }
    apply IZR_le in Hq. destruct Hr as [Hr0 Hr1].
    apply IZR_le in Hr0. apply IZR_lt in Hr1.
    rewrite HdR. split; [split|]; lra.
Qed.

Section TimingFacts.

Context {T H16 : Type} `{Scalar T}.
Variable env : Environment T H16.

Local Abbreviation world := (World T H16).

Variables (M K N R : size_t) (func : @backend T H16) (w : world).

(** The backend returns on the operands [benchmark] draws. *)
Hypothesis Hreturns :
  forall u, exists C u',
    func (random_matrix env (generators w) M K)
         (random_matrix env (S (generators w)) K N) M K N u = Ok C u'.

Lemma benchmark_times_length :
  exists times w',
    benchmark_times env M K N R func w = Ok times w' /\
    length times = N.to_nat R.
Proof.
  unfold benchmark_times, bind, make_random_matrix, now. simpl_world.
  match goal with
  | |- context [for_prog _ _ ?body _ ?w1] =>
      destruct (for_prog_invariant
                  (fun j times (_ : world) => length times = N.to_nat j)
                  body (N.to_nat R) 0%N [] w1) as [times [w' [E Hlen]]]
  end.
  - reflexivity.
  - intros j times u Hj Hl.
    unfold timed_call, bind, now, record_call. simpl_world.
    match goal with
    | |- context [func _ _ M K N ?u1] =>
        destruct (Hreturns u1) as [C [u' EC]]; rewrite EC
    end.
    eexists; eexists; split; [reflexivity|].
    rewrite length_app, Hl. simpl. lia.
  - replace (0 + N.of_nat (N.to_nat R))%N with R in * by lia.
    exists times, w'. split; assumption.
Qed.

(** The backend does not read the clock. *)
Hypothesis Hclock :
  forall u C u',
    func (random_matrix env (generators w) M K)
         (random_matrix env (S (generators w)) K N) M K N u = Ok C u' ->
    clock_reads u' = clock_reads u.

Lemma benchmark_times_samples :
  exists w',
    benchmark_times env M K N R func w
    = Ok (map (fun i => elapsed_seconds
                          (system_clock_now env (clock_reads w + 1 + 2 * i))
                          (system_clock_now env (clock_reads w + 2 + 2 * i)))
              (seq 0 (N.to_nat R))) w' /\
    clock_reads w' = clock_reads w + 1 + 2 * N.to_nat R.
Proof.
  set (sample := fun i => elapsed_seconds
                            (system_clock_now env (clock_reads w + 1 + 2 * i))
                            (system_clock_now env (clock_reads w + 2 + 2 * i))).
  unfold benchmark_times, bind, make_random_matrix, now. simpl_world.
  match goal with
  | |- context [for_prog _ _ ?body _ ?w1] =>
      destruct (for_prog_invariant
                  (fun j times (u : world) =>
                     times = map sample (seq 0 (N.to_nat j)) /\
                     clock_reads u = clock_reads w + 1 + 2 * N.to_nat j)
                  body (N.to_nat R) 0%N [] w1) as [times [w' [E [Ht Hc]]]]
  end.
  - split; [reflexivity|]. simpl_world. simpl. lia.
  - intros j times u Hj [-> Hc].
    unfold timed_call, bind, now, record_call. simpl_world.
    match goal with
    | |- context [func _ _ M K N ?u1] =>
        destruct (Hreturns u1) as [C [u' EC]]; rewrite EC;
        pose proof (Hclock u1 C u' EC) as Hcu
    end.
    cbn [clock_reads] in Hcu.
    eexists; eexists; split; [reflexivity|]. simpl_world.
    rewrite N2Nat.inj_succ, seq_S, map_app. split.
    + simpl. unfold sample. rewrite Hcu, Hc.
      do 3 f_equal; f_equal; lia.
    + rewrite Hcu. lia.
  - replace (0 + N.of_nat (N.to_nat R))%N with R in * by lia.
    exists w'. rewrite E, Ht. split; [reflexivity | exact Hc].
Qed.

End TimingFacts.



(** X15: [benchmark] needs at least one repetition: with a backend that
    returns, it returns exactly when [repeat >= 1]; with [repeat = 0] it
    dereferences the end iterator of the empty [times], whatever the
    backend. *)
Theorem benchmark_defined_iff {T H16 : Type} `{Scalar T} (env : Environment T H16)
  (M K N R : size_t) (func : backend) (w : World T H16) :
  (forall u, exists C u',
      func (random_matrix env (generators w) M K)
           (random_matrix env (S (generators w)) K N) M K N u = Ok C u') ->
  ((exists r w', benchmark env M K N R func w = Ok r w') <-> (1 <= R)%N) /\
  (R = 0%N -> benchmark env M K N R func w = Undefined).
Proof.
  intros Hfunc.
  assert (Hzero : R = 0%N -> benchmark env M K N R func w = Undefined)
    by (intros ->; reflexivity).
  split; [|exact Hzero]. split.
  - intros (r & w' & E).
    destruct (N.eq_dec R 0) as [Hz | Hnz]; [|lia].
    rewrite (Hzero Hz) in E. discriminate.
  - intros HR.
    destruct (benchmark_times_length env M K N R func w Hfunc)
      as (times & w' & E & Hlen).
    unfold benchmark, bind. rewrite E.
    destruct times as [|x times]; [simpl in Hlen; lia|].
    eexists; eexists; reflexivity.
Qed.

Lemma benchmark_defined_iff_witness :
  ((exists r w', benchmark exact_env 1 1 1 2 naive_backend initial_world = Ok r w')
   <-> (1 <= 2)%N) /\
  (2%N = 0%N ->
   benchmark exact_env 1 1 1 2 naive_backend initial_world = Undefined).
Proof.
  apply (benchmark_defined_iff exact_env 1 1 1 2 naive_backend initial_world).
  intros u. eexists. eexists. reflexivity.
Defined.

(** X16: Calls shorter than the resolution are reported as zeros: when the
    clock never goes back and consecutive readings are less than a
    millisecond apart, [benchmark] returns minimum, mean and standard
    deviation [0]. *)
Theorem benchmark_below_resolution {T H16 : Type} `{Scalar T}
  (env : Environment T H16) (M K N R : size_t) (func : backend) (w : World T H16) :
  (1 <= R)%N ->
  (forall n, (0 <= system_clock_now env (S n) - system_clock_now env n < 1000000)%Z) ->
  (forall u, exists C u',
      func (random_matrix env (generators w) M K)
           (random_matrix env (S (generators w)) K N) M K N u = Ok C u' /\
      clock_reads u' = clock_reads u) ->
  exists w', benchmark env M K N R func w = Ok (0%R, 0%R, 0%R) w'.
Proof.
  intros HR Hfast Hfunc.
  destruct (benchmark_times_samples env M K N R func w) as (w' & E & _).
  - intros u. destruct (Hfunc u) as (C & u' & E & _). now exists C, u'.
  - intros u C u' E. destruct (Hfunc u) as (C' & u'' & E' & Hc).
    rewrite E in E'. now injection E' as _ <-.
  - exists w'. unfold benchmark, bind. rewrite E.
    match goal with
    | |- context [min_element ?l] => set (times := l)
    end.
    assert (Hall : forall x, In x times -> x = 0%R).
    { intros x Hx. apply in_map_iff in Hx. destruct Hx as (i & <- & _).
      apply elapsed_seconds_zero.
      replace (clock_reads w + 2 + 2 * i) with (S (clock_reads w + 1 + 2 * i)) by lia.
      specialize (Hfast (clock_reads w + 1 + 2 * i)). lia. }
    assert (Hne : times <> []).
    { unfold times. destruct (N.to_nat R) eqn:En; [lia | discriminate]. }
    assert (Hin : In 0%R times).
    { destruct times as [|x l]; [congruence|]. left. apply Hall. now left. }
    rewrite (min_element_complete times 0%R Hin)
      by (intros x Hx; rewrite (Hall x Hx); lra).
    assert (Hmean : calculateAverage times = 0%R).
    { rewrite calculateAverage_mean. unfold arithmetic_mean.
      rewrite (Rsum_constant 0%R times Hall). unfold Rdiv. now rewrite !Rmult_0_r, Rmult_0_l. }
    assert (Hsd : calculateStdDev times = 0%R).
    { rewrite calculateStdDev_population.
      apply (proj2 (population_stddev_zero times Hne)).
      intros x y Hx Hy. now rewrite (Hall x Hx), (Hall y Hy). }
    rewrite Hmean, Hsd. reflexivity.
Qed.

Lemma benchmark_below_resolution_witness :
  exists w',
    benchmark {| uniform_draw := uniform_draw exact_env;
                 system_clock_now := fun n => Z.of_nat n;
                 to_float16 := to_float16 exact_env;
                 cblas_sgemm := cblas_sgemm exact_env;
                 create_status := create_status exact_env;
                 io_attr_size := io_attr_size exact_env;
                 output_region := output_region exact_env;
                 stdout_interactive := stdout_interactive exact_env |}
              1 1 1 2 naive_backend initial_world
    = Ok (0%R, 0%R, 0%R) w'.
Proof.
  apply (benchmark_below_resolution _ 1 1 1 2 naive_backend initial_world).
  - lia.
  - intros n. cbn [system_clock_now]. lia.
  - intros u. eexists. eexists. split; reflexivity.
Defined.

(** ** The table *)

Lemma for_each_prints {T H16 : Type} (body : size_t -> Prog (World T H16) unit)
  (xs : list size_t) :
  (forall x w, In x xs -> pending w = [] ->
     exists w' o, body x w = Ok tt w' /\ stdout w' = o :: stdout w /\
                  row_size o = Some x /\ pending w' = []) ->
  forall w, pending w = [] ->
    exists w' rows,
      for_each xs body w = Ok tt w' /\
      stdout w' = rev rows ++ stdout w /\
      map row_size rows = map Some xs.
Proof.
  induction xs as [|x xs IH]; intros Hbody w Hw.
  - exists w, []. repeat split.
  - destruct (Hbody x w (or_introl eq_refl) Hw) as (w1 & o & E1 & Ho & Hrow & Hw1).
    destruct (IH (fun y u Hy => Hbody y u (or_intror Hy)) w1 Hw1)
      as (w' & rows & E & Hout & Hrows).
    exists w', (o :: rows). cbn [for_each]. unfold bind. rewrite E1.
    split; [exact E|]. split.
    + rewrite Hout, Ho. cbn [rev]. now rewrite <- app_assoc.
    + cbn [map]. now rewrite Hrow, Hrows.
Qed.

(** X17: When every plan negotiation succeeds, [main] prints the header,
    the separator and then one row per size, in the order of [sizes]: 256,
    512, 1024, 2048; nothing else is printed and the exit code is [0]. *)
Theorem main_prints_table {T H16 : Type} `{Scalar T} (env : Environment T H16) :
  (forall s, In s sizes -> collaborators_ok env s s s) ->
  (forall h M K N, (0 <= create_status env h M K N)%Z) ->
  exists w' rows,
    main env initial_world = Ok 0%Z w' /\
    rev (stdout w') = OutHeader :: OutSeparator :: rows /\
    map row_size rows = [Some 256; Some 512; Some 1024; Some 2048]%N.
Proof.
  intros Hok Hst. unfold main. run_prog. unfold bind at 1.
  match goal with
  | |- context [for_each sizes ?body ?w0] =>
      destruct (for_each_prints body sizes) with (w := w0)
        as (w' & rows & E & Hout & Hrows)
  end.
  - intros s w Hs Hw. pose proof (sizes_bound s Hs) as Hb.
    destruct (bench_all_outcome env s s s 20) with (w := w) as [_ Hret];
      [lia | apply shape_fits_square; lia | now apply Hok |].
    destruct (Hret (Hst _ _ _ _))
      as (r0 & r1 & r2 & c & A & B & w1 & E & _ & _ & Ho & _ & _ & Hp).
    unfold bind. rewrite E. run_prog.
    eexists; eexists; split; [reflexivity|]. simpl_world.
    rewrite Ho, Hp, Hw. repeat split.
  - reflexivity.
  - exists w', rows. rewrite E. split; [reflexivity|]. split; [|exact Hrows].
    rewrite Hout. simpl_world. rewrite rev_app_distr, rev_involutive. reflexivity.
Qed.

Lemma main_prints_table_witness :
  exists w' rows,
    main exact_env initial_world = Ok 0%Z w' /\
    rev (stdout w') = OutHeader :: OutSeparator :: rows /\
    map row_size rows = [Some 256; Some 512; Some 1024; Some 2048]%N.
Proof.
  apply (main_prints_table exact_env).
  - intros s Hs. apply exact_env_collaborators.
    pose proof (sizes_bound s Hs). lia.
  - intros h M K N. cbn [create_status exact_env]. lia.
Defined.

(** ** The operands of the three runs *)


(** X18: Each of the three runs of [bench_all] draws operands of its own:
    a run takes two generators, so the naive, the library and the hardware
    backend are timed on three separately drawn pairs of random matrices,
    each pair used for all repetitions of its run. *)
Theorem bench_all_operands {T H16 : Type} `{Scalar T} (env : Environment T H16)
  (M K N R : size_t) (w : World T H16) :
  (1 <= R)%N -> shape_fits M K N -> collaborators_ok env M K N ->
  (0 <= create_status env (repeat EvSgemm (N.to_nat R) ++ repeat EvNaive 3 ++ trace w)
          (to_int M) (to_int K) (to_int N))%Z ->
  let g := generators w in
  exists r w',
    bench_all env M K N R w = Ok r w' /\
    generators w' = g + 6 /\
    calls w'
    = repeat (random_matrix env (g + 4) M K, random_matrix env (g + 5) K N) (N.to_nat R)
      ++ repeat (random_matrix env (g + 2) M K, random_matrix env (g + 3) K N) (N.to_nat R)
      ++ repeat (random_matrix env g M K, random_matrix env (g + 1) K N) 3
      ++ calls w.
Proof.
  intros HR Hfits Hok Hst g.
  destruct (bench_all_outcome env M K N R HR Hfits Hok w) as [_ Hret].
  destruct (Hret Hst) as (r0 & r1 & r2 & c0 & A & B & w' & E & _).
  exists [r0; r1; r2], w'. split; [exact E|].
  revert E. unfold bench_all, bind, rknn_setup.
  destruct (benchmark env M K N 3 naive_backend w) as [q0 w1| |] eqn:E1;
    try discriminate.
  destruct (benchmark env M K N R (cblas_backend env) w1) as [q1 w2| |] eqn:E2;
    try discriminate.
  destruct (make_matmul env (to_int M) (to_int K) (to_int N) w2) as [c w3| |] eqn:E3;
    try discriminate.
  destruct (benchmark env M K N R (rknn_call env c) w3) as [q2 w4| |] eqn:E4;
    try discriminate.
  unfold ret. intros [= _ _ _ <-].
  apply benchmark_frame in E1; [|intros A' B' u C u'; apply naive_backend_frame].
  apply benchmark_frame in E2; [|intros A' B' u C u'; apply cblas_backend_frame].
  apply make_matmul_frame in E3.
  apply benchmark_frame in E4; [|intros A' B' u C u'; apply rknn_call_frame].
  destruct E1 as (Hg1 & Hc1 & _), E2 as (Hg2 & Hc2 & _), E3 as (Hg3 & Hc3 & _),
    E4 as (Hg4 & Hc4 & _).
  rewrite Hg4, Hc4, Hg3, Hc3, Hc2, Hg2, Hc1, Hg1. fold g.
  replace (g + 1) with (S g) by lia.
  replace (g + 2) with (S (S g)) by lia.
  replace (g + 3) with (S (S (S g))) by lia.
  replace (g + 4) with (S (S (S (S g)))) by lia.
  replace (g + 5) with (S (S (S (S (S g))))) by lia.
  split; [lia | reflexivity].
Qed.

Lemma bench_all_operands_witness :
  exists r w',
    bench_all exact_env 2 2 2 2 initial_world = Ok r w' /\
    generators w' = 0 + 6 /\
    calls w'
    = repeat (random_matrix exact_env (0 + 4) 2 2, random_matrix exact_env (0 + 5) 2 2)
             (N.to_nat 2)
      ++ repeat (random_matrix exact_env (0 + 2) 2 2, random_matrix exact_env (0 + 3) 2 2)
                (N.to_nat 2)
      ++ repeat (random_matrix exact_env 0 2 2, random_matrix exact_env (0 + 1) 2 2) 3
      ++ calls (@initial_world Z Z).
Proof.
  apply (bench_all_operands exact_env 2 2 2 2 initial_world).
  - lia.
  - apply shape_fits_square. lia.
  - apply exact_env_collaborators. lia.
  - cbn [create_status exact_env]. lia.
Defined.
